(** * The OCR server: task queue, worker pool, result channels and the RPC handler

    A shallow embedding of [server.cpp] (the [TaskProcessor] monitor, the worker
    loop [processTasks], the handler [OCRServiceHandler::ProcessImage]) and of the
    client call wrapper [ImageTextExtractor::extractFromImage].

    Threads are modelled by an interleaving step relation on one shared server
    state.  Every critical section guarded by [queue_mutex_] is one atomic step;
    a condition-variable wait is a step that is enabled exactly when its
    predicate holds.  Time is the reading of [std::chrono::steady_clock] in
    nanoseconds and advances only by explicit [tick] steps. *)

From Stdlib Require Import ZArith QArith_base Strings.Byte.
From stdpp Require Import base list strings relations.
From stdpp Require Import pretty.

Local Open Scope string_scope.
Local Open Scope Z_scope.

(** ** External capabilities: Leptonica and Tesseract

    Every call made inside the worker's [try] block either completes or raises;
    [catch (const std::exception&)] sees [StdException], [catch (...)] the rest. *)

Inductive thrown (A : Type) : Type :=
  | Normal (a : A)
  | StdException (what : string)
  | UnknownException.
Arguments Normal {A} a.
Arguments StdException {A} what.
Arguments UnknownException {A}.

(** A [Pix*] or [char*] that may be [nullptr] is an [option]. *)
Class OcrLibs := {
  Pix : Type;
  TessBaseAPI : Type;
  (** a default-constructed [tesseract::TessBaseAPI] *)
  TessBaseAPI_new : TessBaseAPI;
  (** [Init(datapath, language)]: the engine afterwards and the return code *)
  Init : TessBaseAPI → string → string → TessBaseAPI * Z;
  pixReadMem : list byte → thrown (option Pix);
  pixConvertTo8 : Pix → Z → thrown (option Pix);
  pixGammaTRC : option Pix → option Pix → Q → Z → Z → thrown (option Pix);
  SetImage : TessBaseAPI → option Pix → TessBaseAPI * thrown unit;
  GetUTF8Text : TessBaseAPI → TessBaseAPI * thrown (option string);
}.

(** The external calls a worker makes, in the order it makes them. *)
Inductive call : Type :=
  | CallPixReadMem (data : list byte)
  | CallPixConvertTo8 (cmapflag : Z)
  | CallPixGammaTRC (gamma : Q) (minval maxval : Z)
  | CallSetImage
  | CallGetUTF8Text.

(** ** The result channel: [std::promise<std::string>] and its future *)

Inductive future_state : Type :=
  | NoFuture          (* get_future() not called yet *)
  | FutureWaiting     (* the handler holds the future *)
  | FutureConsumed    (* the handler called get() *)
  | FutureAbandoned.  (* the handler returned without get(): deadline expired *)

Record promise : Type := Promise {
  shared_value : option string;
  reader : future_state;
}.

Inductive future_errc : Type :=
  | promise_already_satisfied
  | future_already_retrieved.

Definition promise_new : promise :=
  {| shared_value := None; reader := NoFuture |}.

(** [promise::get_future()] *)
Definition get_future (p : promise) : future_errc + promise :=
  match reader p with
  | NoFuture => inr {| shared_value := shared_value p; reader := FutureWaiting |}
  | _ => inl future_already_retrieved
  end.

(** [promise::set_value(v)]: throws [future_error] when a value is stored
    already; the state of the future is not consulted. *)
Definition set_value (p : promise) (v : string) : future_errc + promise :=
  match shared_value p with
  | Some _ => inl promise_already_satisfied
  | None => inr {| shared_value := Some v; reader := reader p |}
  end.

(** server.cpp 139-141: [try { text_promise.set_value(extracted_text); } catch (...) {}] *)
Definition deliver (p : promise) (extracted_text : string) : promise :=
  match set_value p extracted_text with
  | inr p' => p'
  | inl _ => p
  end.

(** ** Tasks and wire messages *)

Record OcrTask : Type := {
  file_name : string;
  language_code : string;
  image_data : list byte;
  text_promise : promise;
  task_start_time : Z;
}.

Definition with_promise (t : OcrTask) (p : promise) : OcrTask :=
  {| file_name := file_name t; language_code := language_code t;
     image_data := image_data t; text_promise := p;
     task_start_time := task_start_time t |}.

Record ProcessImageRequest : Type := {
  client_id : string;
  batch_id : string;
  filename : string;
  image : list byte;
  lang : string;
}.

Record ProcessImageResponse : Type := {
  ok : bool;
  text : string;
  message : string;
  processing_time_ms : Z;
}.

(** A default-constructed protobuf response. *)
Definition response_default : ProcessImageResponse :=
  {| ok := false; text := ""; message := ""; processing_time_ms := 0 |}.

(** The part of [grpc::ServerContext] a handler could consult: the deadline the
    caller attached to the call. *)
Record ServerContext : Type := { deadline : Z }.

(** ** Durations *)

Definition nanos_per_second : Z := 1000000000.
Definition nanos_per_milli : Z := 1000000.

(** [std::chrono::seconds(n)] as a nanosecond count *)
Definition seconds (n : Z) : Z := n * nanos_per_second.

(** [duration_cast<milliseconds>(d).count()] truncates toward zero. *)
Definition duration_cast_ms (d : Z) : Z := Z.quot d nanos_per_milli.

Section Server.
Context `{L : OcrLibs}.

(** ** The worker's [try] block as a computation over its own engine

    A computation takes the engine, and returns the engine afterwards, the
    calls made, and a value or the exception that cut it short. *)

Definition M (A : Type) : Type := TessBaseAPI → TessBaseAPI * list call * thrown A.

Definition ret {A} (a : A) : M A := λ e, (e, [], Normal a).

Definition bind {A B} (m : M A) (k : A → M B) : M B := λ e,
  match m e with
  | (e1, tr1, Normal a) =>
      match k a e1 with (e2, tr2, r) => (e2, (tr1 ++ tr2)%list, r) end
  | (e1, tr1, StdException what) => (e1, tr1, StdException what)
  | (e1, tr1, UnknownException) => (e1, tr1, UnknownException)
  end.

Notation "'call!' x ':=' m 'in' k" := (bind m (λ x, k))
  (at level 10, x name, m at level 100, k at level 200).

(** a Leptonica call: the engine is not touched *)
Definition lept {A} (c : call) (r : thrown A) : M A := λ e, (e, [c], r).

(** an engine call *)
Definition tess {A} (c : call) (f : TessBaseAPI → TessBaseAPI * thrown A) : M A :=
  λ e, match f e with (e', r) => (e', [c], r) end.

(** server.cpp 103-127, the body of the [try]; the result is [extracted_text]
    as it stands when the block is left normally. *)
Definition recognize (current_task : OcrTask) : M string :=
  call! image_pix := lept (CallPixReadMem (image_data current_task))
                           (pixReadMem (image_data current_task)) in
  match image_pix with
  | None => ret ""
  | Some pix =>
      call! gray_pix := lept (CallPixConvertTo8 0) (pixConvertTo8 pix 0) in
      call! enhanced_pix := lept (CallPixGammaTRC (12 # 10) 50 180)
                                 (pixGammaTRC None gray_pix (12 # 10) 50 180) in
      call! _ := tess CallSetImage (λ e, SetImage e enhanced_pix) in
      call! ocr_result := tess CallGetUTF8Text GetUTF8Text in
      ret (match ocr_result with Some s => s | None => "" end)
  end.

(** server.cpp 100-133: the [try] with its two handlers. *)
Definition extract_text (current_task : OcrTask) (ocr_engine : TessBaseAPI)
  : TessBaseAPI * list call * string :=
  match recognize current_task ocr_engine with
  | (e, tr, Normal s) => (e, tr, s)
  | (e, tr, StdException what) => (e, tr, String.append "ERROR: " what)
  | (e, tr, UnknownException) => (e, tr, "ERROR: unknown exception")
  end.

(** ** The shared state

    A [shared_ptr<OcrTask>] is the index of the task in [tasks], the objects
    made by [make_shared<OcrTask>] in allocation order; the promise inside a
    task is thereby shared between the handler and the worker. *)

(** Where a worker thread stands in [processTasks]. *)
Inductive worker_pc : Type :=
  | AtWait                        (* at task_available_.wait, line 84 *)
  | Holding (current_task : nat)  (* left the critical section, line 95 *)
  | Returned.                     (* executed the return of line 88 *)

Record worker : Type := {
  ocr_engine : TessBaseAPI;
  at_ : worker_pc;
}.

(** Where an RPC thread stands in [ProcessImage]. *)
Inductive handler_pc : Type :=
  | InWaitFor (new_task : nat) (wait_start : Z)   (* inside wait_for, line 174 *)
  | Replied (response : ProcessImageResponse).    (* returned Status::OK *)

(** The two "[Queue]" lines written to [std::cout] under the lock. *)
Inductive queue_event : Type :=
  | Submitted (task : nat)
  | Dequeued (by_worker : nat) (task : nat).

Record Server : Type := {
  steady_clock : Z;
  tasks : list OcrTask;
  pending_tasks_ : list nat;
  shutdown_requested_ : bool;
  workers_ : list worker;
  handlers : list handler_pc;
  queue_log : list queue_event;
}.

(** server.cpp 74-78: the engine a worker thread sets up before its loop; the
    return code of [Init] is only logged. *)
Definition worker_start : worker :=
  {| ocr_engine := fst (Init TessBaseAPI_new "/opt/homebrew/share/tessdata" "eng");
     at_ := AtWait |}.

(** server.cpp 37-41: the constructor, at clock reading [now]. *)
Definition TaskProcessor (now : Z) (worker_count : nat) : Server :=
  {| steady_clock := now;
     tasks := [];
     pending_tasks_ := [];
     shutdown_requested_ := false;
     workers_ := replicate worker_count worker_start;
     handlers := [];
     queue_log := [] |}.

(** server.cpp 49-57 *)
Definition submitTask (task : nat) (s : Server) : Server :=
  {| steady_clock := steady_clock s;
     tasks := tasks s;
     pending_tasks_ := pending_tasks_ s ++ [task];
     shutdown_requested_ := shutdown_requested_ s;
     workers_ := workers_ s;
     handlers := handlers s;
     queue_log := queue_log s ++ [Submitted task] |}.

(** server.cpp 59-64: the critical section of [stopProcessing]; the flag tells
    whether the caller goes on to [notify_all] and the joins. *)
Definition stopProcessing (s : Server) : Server * bool :=
  if shutdown_requested_ s then (s, false)
  else ({| steady_clock := steady_clock s;
           tasks := tasks s;
           pending_tasks_ := pending_tasks_ s;
           shutdown_requested_ := true;
           workers_ := workers_ s;
           handlers := handlers s;
           queue_log := queue_log s |}, true).

(** server.cpp 66-68: the loop of joins is left once every worker thread has
    returned from [processTasks]. *)
Definition joined (s : Server) : bool :=
  forallb (λ w, match at_ w with Returned => true | _ => false end) (workers_ s).

Definition queue_empty (s : Server) : bool :=
  match pending_tasks_ s with [] => true | _ => false end.

(** server.cpp 85: the predicate of the wait *)
Definition wait_predicate (s : Server) : bool :=
  shutdown_requested_ s || negb (queue_empty s).

(** server.cpp 88: the condition of the return *)
Definition exit_condition (s : Server) : bool :=
  shutdown_requested_ s && queue_empty s.

Definition set_worker (w : nat) (wk : worker) (s : Server) : list worker :=
  <[w := wk]> (workers_ s).

(** server.cpp 82-95: one pass through the critical section of the loop. *)
Definition worker_take (w : nat) (s : Server) : option Server :=
  match workers_ s !! w with
  | Some wk =>
      match at_ wk with
      | AtWait =>
          if wait_predicate s then
            if exit_condition s then
              Some {| steady_clock := steady_clock s;
                      tasks := tasks s;
                      pending_tasks_ := pending_tasks_ s;
                      shutdown_requested_ := shutdown_requested_ s;
                      workers_ := set_worker w {| ocr_engine := ocr_engine wk;
                                                  at_ := Returned |} s;
                      handlers := handlers s;
                      queue_log := queue_log s |}
            else
              match pending_tasks_ s with
              | current_task :: rest =>
                  Some {| steady_clock := steady_clock s;
                          tasks := tasks s;
                          pending_tasks_ := rest;
                          shutdown_requested_ := shutdown_requested_ s;
                          workers_ := set_worker w {| ocr_engine := ocr_engine wk;
                                                      at_ := Holding current_task |} s;
                          handlers := handlers s;
                          queue_log := queue_log s ++ [Dequeued w current_task] |}
              | [] => None
              end
          else None
      | _ => None
      end
  | None => None
  end.

(** server.cpp 97-142: the rest of the loop body, back to the wait. *)
Definition worker_finish (w : nat) (s : Server) : option Server :=
  match workers_ s !! w with
  | Some wk =>
      match at_ wk with
      | Holding current_task =>
          match tasks s !! current_task with
          | Some task =>
              match extract_text task (ocr_engine wk) with
              | (e, _, extracted_text) =>
                  Some {| steady_clock := steady_clock s;
                          tasks := <[current_task :=
                                      with_promise task
                                        (deliver (text_promise task) extracted_text)]>
                                   (tasks s);
                          pending_tasks_ := pending_tasks_ s;
                          shutdown_requested_ := shutdown_requested_ s;
                          workers_ := set_worker w {| ocr_engine := e; at_ := AtWait |} s;
                          handlers := handlers s;
                          queue_log := queue_log s |}
              end
          | None => None
          end
      | _ => None
      end
  | None => None
  end.

(** ** The handler [OCRServiceHandler::ProcessImage] *)

(** server.cpp 164-168: the task built from the request at clock reading [now];
    nothing of [context] is read. *)
Definition new_task_of (request : ProcessImageRequest) (now : Z) : OcrTask :=
  {| file_name := filename request;
     language_code := lang request;
     image_data := image request;
     text_promise := promise_new;
     task_start_time := now |}.

(** server.cpp 174: the bound of the wait, [std::chrono::seconds(120)] *)
Definition wait_bound : Z := seconds 120.

(** server.cpp 164-174: build the task, take the future, submit, enter
    [wait_for].  The new RPC thread gets the next index of [handlers]. *)
Definition ProcessImage_submit (context : ServerContext) (request : ProcessImageRequest)
    (s : Server) : option Server :=
  let task := new_task_of request (steady_clock s) in
  let new_task := length (tasks s) in
  match get_future (text_promise task) with
  | inr p =>
      Some (submitTask new_task
              {| steady_clock := steady_clock s;
                 tasks := tasks s ++ [with_promise task p];
                 pending_tasks_ := pending_tasks_ s;
                 shutdown_requested_ := shutdown_requested_ s;
                 workers_ := workers_ s;
                 handlers := handlers s ++ [InWaitFor new_task (steady_clock s)];
                 queue_log := queue_log s |})
  | inl _ => None
  end.

(** server.cpp 177-178 *)
Definition timeout_response : ProcessImageResponse :=
  {| ok := false; text := ""; message := "Image processing timeout";
     processing_time_ms := 0 |}.

(** server.cpp 183-189, with [now] the clock reading of line 187-188 *)
Definition completed_response (result_text : string) (now task_start : Z)
  : ProcessImageResponse :=
  {| ok := true; text := result_text; message := "";
     processing_time_ms := duration_cast_ms (now - task_start) |}.

Definition reply (h : nat) (new_task : nat) (task : OcrTask) (r : future_state)
    (response : ProcessImageResponse) (s : Server) : Server :=
  {| steady_clock := steady_clock s;
     tasks := <[new_task := with_promise task
                  {| shared_value := shared_value (text_promise task); reader := r |}]>
              (tasks s);
     pending_tasks_ := pending_tasks_ s;
     shutdown_requested_ := shutdown_requested_ s;
     workers_ := workers_ s;
     handlers := <[h := Replied response]> (handlers s);
     queue_log := queue_log s |}.

(** server.cpp 174, 183-194: [wait_for] finds the shared state ready. *)
Definition ProcessImage_ready (h : nat) (s : Server) : option Server :=
  match handlers s !! h with
  | Some (InWaitFor new_task wait_start) =>
      match tasks s !! new_task with
      | Some task =>
          match shared_value (text_promise task) with
          | Some result_text =>
              Some (reply h new_task task FutureConsumed
                      (completed_response result_text (steady_clock s)
                         (task_start_time task)) s)
          | None => None
          end
      | None => None
      end
  | _ => None
  end.

(** server.cpp 174-180: [wait_for] returns [future_status::timeout]: the bound
    has elapsed and the shared state is not ready. *)
Definition ProcessImage_timeout (h : nat) (s : Server) : option Server :=
  match handlers s !! h with
  | Some (InWaitFor new_task wait_start) =>
      match tasks s !! new_task with
      | Some task =>
          match shared_value (text_promise task) with
          | None =>
              if wait_bound <=? steady_clock s - wait_start then
                Some (reply h new_task task FutureAbandoned timeout_response s)
              else None
          | Some _ => None
          end
      | None => None
      end
  | _ => None
  end.

(** Time passes. *)
Definition tick (d : Z) (s : Server) : option Server :=
  if 0 <? d then
    Some {| steady_clock := steady_clock s + d;
            tasks := tasks s;
            pending_tasks_ := pending_tasks_ s;
            shutdown_requested_ := shutdown_requested_ s;
            workers_ := workers_ s;
            handlers := handlers s;
            queue_log := queue_log s |}
  else None.

(** ** The interleaving semantics *)

Inductive action : Type :=
  | Request (context : ServerContext) (request : ProcessImageRequest)
  | Take (w : nat)
  | Finish (w : nat)
  | Ready (h : nat)
  | Timeout (h : nat)
  | Stop
  | Tick (d : Z).

Definition perform (a : action) (s : Server) : option Server :=
  match a with
  | Request context request => ProcessImage_submit context request s
  | Take w => worker_take w s
  | Finish w => worker_finish w s
  | Ready h => ProcessImage_ready h s
  | Timeout h => ProcessImage_timeout h s
  | Stop => Some (fst (stopProcessing s))
  | Tick d => tick d s
  end.

Definition step (s s' : Server) : Prop := ∃ a, perform a s = Some s'.

(** Runs a schedule, stopping at the first action that is not enabled. *)
Fixpoint run (sched : list action) (s : Server) : option Server :=
  match sched with
  | [] => Some s
  | a :: rest => match perform a s with Some s' => run rest s' | None => None end
  end.

Definition reachable (s : Server) : Prop :=
  ∃ now worker_count, rtc step (TaskProcessor now worker_count) s.

(** ** What the "[Queue]" lines record *)

Fixpoint submitted (log : list queue_event) : list nat :=
  match log with
  | [] => []
  | Submitted t :: rest => t :: submitted rest
  | Dequeued _ _ :: rest => submitted rest
  end.

Fixpoint dequeued (log : list queue_event) : list nat :=
  match log with
  | [] => []
  | Submitted _ :: rest => dequeued rest
  | Dequeued _ t :: rest => t :: dequeued rest
  end.

(** the workers that removed [t], one entry per removal *)
Fixpoint removers (t : nat) (log : list queue_event) : list nat :=
  match log with
  | [] => []
  | Submitted _ :: rest => removers t rest
  | Dequeued w t' :: rest =>
      if Nat.eqb t t' then w :: removers t rest else removers t rest
  end.

(** ** Invariant of the monitor *)

(** the promise of task [t] holds no value yet *)
Definition unwritten (s : Server) (t : nat) : Prop :=
  ∃ task, tasks s !! t = Some task ∧ shared_value (text_promise task) = None.

(** worker [w] has dequeued [t] and not yet finished it *)
Definition holds (s : Server) (w t : nat) : Prop :=
  ∃ wk, workers_ s !! w = Some wk ∧ at_ wk = Holding t.

Record invariant (s : Server) : Prop := {
  inv_log : submitted (queue_log s) = (dequeued (queue_log s) ++ pending_tasks_ s)%list;
  inv_alloc : submitted (queue_log s) = seq 0 (length (tasks s));
  inv_clock : ∀ t task, tasks s !! t = Some task → task_start_time task ≤ steady_clock s;
  inv_calls : length (handlers s) = length (tasks s);
  inv_wait : ∀ h t ws, handlers s !! h = Some (InWaitFor t ws) →
             t = h ∧ ws ≤ steady_clock s;
  inv_one_holder : ∀ w1 w2 t, holds s w1 t → holds s w2 t → w1 = w2;
  inv_held_not_pending : ∀ w t, holds s w t → t ∉ pending_tasks_ s;
  inv_held_unwritten : ∀ w t, holds s w t → unwritten s t;
  inv_pending_unwritten : ∀ t, t ∈ pending_tasks_ s → unwritten s t;
  inv_returned : ∀ w wk, workers_ s !! w = Some wk → at_ wk = Returned →
                 shutdown_requested_ s = true;
}.

(** what may change of a task object after its submission: only the promise,
    and a stored value stays *)
Definition evolves (task task' : OcrTask) : Prop :=
  file_name task' = file_name task ∧
  language_code task' = language_code task ∧
  image_data task' = image_data task ∧
  task_start_time task' = task_start_time task ∧
  ∀ v, shared_value (text_promise task) = Some v →
       shared_value (text_promise task') = Some v.

(** ** Hiding the language hint

    To compare two runs that differ only in the [lang] fields of the requests,
    the language code is blanked in requests and in stored tasks. *)

Definition with_language (task : OcrTask) (code : string) : OcrTask :=
  {| file_name := file_name task; language_code := code;
     image_data := image_data task; text_promise := text_promise task;
     task_start_time := task_start_time task |}.

Definition hide_request_language (request : ProcessImageRequest) : ProcessImageRequest :=
  {| client_id := client_id request; batch_id := batch_id request;
     filename := filename request; image := image request; lang := "" |}.

Definition hide_action_language (a : action) : action :=
  match a with
  | Request context request => Request context (hide_request_language request)
  | _ => a
  end.

Definition hide_language (s : Server) : Server :=
  {| steady_clock := steady_clock s;
     tasks := (λ task, with_language task "") <$> tasks s;
     pending_tasks_ := pending_tasks_ s;
     shutdown_requested_ := shutdown_requested_ s;
     workers_ := workers_ s;
     handlers := handlers s;
     queue_log := queue_log s |}.

(** ** Further invariants of the running server *)

(** every worker thread has returned from [processTasks] *)
Definition all_returned (s : Server) : Prop :=
  ∀ w wk, workers_ s !! w = Some wk → at_ wk = Returned.

(** what the handlers stand for: a waiting handler began its wait at the
    creation time of its own task; a reply is the timeout reply, given no
    sooner than [wait_bound] after that time, or the completed reply built
    from the value stored in the task's promise at a clock reading between
    the creation time and now *)
Record handlers_sound (s : Server) : Prop := {
  waiting_sound : ∀ h t ws, handlers s !! h = Some (InWaitFor t ws) →
    ∃ task, tasks s !! h = Some task ∧ t = h ∧ ws = task_start_time task;
  replied_sound : ∀ h r, handlers s !! h = Some (Replied r) →
    ∃ task, tasks s !! h = Some task ∧
      ((r = timeout_response ∧ wait_bound ≤ steady_clock s - task_start_time task) ∨
       (∃ v c, shared_value (text_promise task) = Some v ∧
               task_start_time task ≤ c ≤ steady_clock s ∧
               r = completed_response v c (task_start_time task)));
}.

(** how the promises follow the queue: a held task was dequeued, and a promise
    holds a value exactly when its task was dequeued and is held no longer *)
Record promises_follow_queue (s : Server) : Prop := {
  held_dequeued : ∀ w t, holds s w t → t ∈ dequeued (queue_log s);
  written_finished : ∀ t task, tasks s !! t = Some task →
    (is_Some (shared_value (text_promise task)) ↔
     t ∈ dequeued (queue_log s) ∧ ∀ w, ¬ holds s w t);
}.

(** worker [w] goes [n] times through its loop body *)
Fixpoint serve (w : nat) (n : nat) : list action :=
  match n with
  | O => []
  | S k => Take w :: Finish w :: serve w k
  end.

End Server.

(** ** The client call wrapper [ImageTextExtractor::extractFromImage] *)

(** part_000 46-51 *)
Definition extraction_request (session_identifier job_group_id file_path : string)
    (image_data : list byte) : ProcessImageRequest :=
  {| client_id := session_identifier;
     batch_id := job_group_id;
     filename := file_path;
     image := image_data;
     lang := "eng" |}.

(** part_000 45, 56-58: [max_wait_seconds] has the default argument 120; the
    deadline is set on the client's context and travels with the call. *)
Definition client_context (now : Z) (max_wait_seconds : option Z) : ServerContext :=
  {| deadline := now + seconds (default 120 max_wait_seconds) |}.

Record grpc_Status : Type := { status_ok : bool; error_message : string }.

(** part_000 63-67 *)
Definition extractFromImage_result (operation_status : grpc_Status)
    (extraction_response : ProcessImageResponse) : ProcessImageResponse :=
  if status_ok operation_status then extraction_response
  else {| ok := false;
          text := text extraction_response;
          message := error_message operation_status;
          processing_time_ms := processing_time_ms extraction_response |}.

(** ** The presentation client: [TextExtractionUI]

    A [QString] is its sequence of UTF-16 code units.  What Qt decides from
    its Unicode tables, the decoding of UTF-8, and the two percentages the
    source computes in [double] arithmetic are taken as given. *)

Abbreviation QChar := N (only parsing).
Abbreviation QString := (list N) (only parsing).

Class QtText := {
  (** [QChar::isLetter], [QChar::isSpace] *)
  isLetter : QChar → bool;
  isSpace : QChar → bool;
  (** [QString::fromStdString] *)
  fromStdString : string → QString;
  (** [int((completed * 100.0) / total)] of [updateProgressBar] *)
  percent_of : Z → Z → Z;
  (** [int(base + inc)] of [updateSmoothProgress], from the completed count,
      the total, [step] and [steps_total] *)
  smooth_percent_of : Z → Z → Z → Z → Z;
}.

(** the [QString] of a string literal of the source (ASCII only) *)
Definition QStringLiteral (s : string) : QString :=
  Ascii.N_of_ascii <$> String.list_ascii_of_string s.

(** part_000 75-89, over the files that exist: [None] when the file cannot
    be opened, else its bytes *)
Definition loadImageData (files : string → option (list byte)) (file_location : string)
  : option (list byte) :=
  files file_location.

(** a running detached thread of [handleAddImages] with what its lambda
    captured, and the number of calls it queued that the GUI thread has run *)
Record extraction_thread : Type := {
  current_row : nat;
  full_path : string;
  image_content : list byte;
  current_batch_id : string;
  calls_run : nat;
}.

(** columns 1 and 2 of [results_display]; column 0 holds a thumbnail widget
    that nothing reads *)
Record TextExtractionUI : Type := {
  client_session_id_ : string;
  job_sequence_ : Z;
  total_tasks_ : Z;
  completed_tasks_ : Z;
  status_label : QString;
  task_progress : Z;
  results_display : list (QString * QString);
  detached : list extraction_thread;
}.

Section Client.
Context `{Q : QtText}.

(** part_000 91-99 *)
Definition filterLettersOnly (input : QString) : QString :=
  foldl (λ result ch, if isLetter ch || isSpace ch then (result ++ [ch])%list else result)
        [] input.

(** part_000 227-231: what goes into column 2 for a text received *)
Definition text_preview (received : string) : QString :=
  let extracted_text := filterLettersOnly (fromStdString received) in
  if 350 <? Z.of_nat (length extracted_text)
  then (take 350 extracted_text ++ QStringLiteral "...")%list
  else extracted_text.

(** [setItem(row, 1, text)] and [setItem(row, 2, text)]; Qt ignores a row that
    does not exist *)
Definition set_status (row : nat) (t : QString) (rows : list (QString * QString))
  : list (QString * QString) :=
  alter (λ cells, (t, snd cells)) row rows.

Definition set_text (row : nat) (t : QString) (rows : list (QString * QString))
  : list (QString * QString) :=
  alter (λ cells, (fst cells, t)) row rows.

(** part_000 104-107: the fields after construction *)
Definition TextExtractionUI_new : TextExtractionUI :=
  {| client_session_id_ := "session_1";
     job_sequence_ := 0;
     total_tasks_ := 0;
     completed_tasks_ := 0;
     status_label := QStringLiteral "Ready to process images";
     task_progress := 0;
     results_display := [];
     detached := [] |}.

Definition with_progress (u : TextExtractionUI) (value : Z) : TextExtractionUI :=
  {| client_session_id_ := client_session_id_ u; job_sequence_ := job_sequence_ u;
     total_tasks_ := total_tasks_ u; completed_tasks_ := completed_tasks_ u;
     status_label := status_label u; task_progress := value;
     results_display := results_display u; detached := detached u |}.

(** part_000 269-278 *)
Definition updateProgressBar (u : TextExtractionUI) : TextExtractionUI :=
  if total_tasks_ u =? 0 then with_progress u 0
  else
    let percent := percent_of (completed_tasks_ u) (total_tasks_ u) in
    with_progress u (if 100 <? percent then 100 else percent).

(** part_000 260-267 *)
Definition updateSmoothProgress (step steps_total : Z) (u : TextExtractionUI)
  : TextExtractionUI :=
  if total_tasks_ u =? 0 then u
  else
    let percent := smooth_percent_of (completed_tasks_ u) (total_tasks_ u)
                     step steps_total in
    with_progress u (if 100 <? percent then 100 else percent).

(** part_000 251-257 *)
Definition resetDisplay (u : TextExtractionUI) : TextExtractionUI :=
  {| client_session_id_ := client_session_id_ u; job_sequence_ := job_sequence_ u;
     total_tasks_ := 0; completed_tasks_ := 0;
     status_label := QStringLiteral "Ready to process images";
     task_progress := 0;
     results_display := [];
     detached := detached u |}.

(** part_000 172-248: one pass of the loop over the selected files *)
Definition add_file (files : string → option (list byte))
    (u : TextExtractionUI) (file_path : string) : TextExtractionUI :=
  let row := length (results_display u) in
  let rows := set_text row []
                (set_status row (QStringLiteral "Waiting...")
                   (results_display u ++ [([], [])])%list) in
  match loadImageData files file_path with
  | None =>
      updateProgressBar
        {| client_session_id_ := client_session_id_ u; job_sequence_ := job_sequence_ u;
           total_tasks_ := total_tasks_ u;
           completed_tasks_ := completed_tasks_ u + 1;
           status_label := status_label u; task_progress := task_progress u;
           results_display := set_status row (QStringLiteral "Failed to read file") rows;
           detached := detached u |}
  | Some content =>
      {| client_session_id_ := client_session_id_ u; job_sequence_ := job_sequence_ u;
         total_tasks_ := total_tasks_ u; completed_tasks_ := completed_tasks_ u;
         status_label := status_label u; task_progress := task_progress u;
         results_display := rows;
         detached := (detached u ++
           [{| current_row := row; full_path := file_path; image_content := content;
               current_batch_id := pretty (job_sequence_ u); calls_run := 0 |}])%list |}
  end.

(** part_000 159-249 after the file dialog has returned [selected_files] *)
Definition handleAddImages (files : string → option (list byte))
    (selected_files : list string) (u : TextExtractionUI) : TextExtractionUI :=
  match selected_files with
  | [] => u
  | _ =>
      let total := total_tasks_ u + Z.of_nat (length selected_files) in
      let u1 := updateProgressBar
        {| client_session_id_ := client_session_id_ u; job_sequence_ := job_sequence_ u;
           total_tasks_ := total; completed_tasks_ := completed_tasks_ u;
           status_label := status_label u; task_progress := task_progress u;
           results_display := results_display u; detached := detached u |} in
      let u2 :=
        {| client_session_id_ := client_session_id_ u1; job_sequence_ := job_sequence_ u1;
           total_tasks_ := total_tasks_ u1; completed_tasks_ := completed_tasks_ u1;
           status_label := (QStringLiteral "Processing " ++ QStringLiteral (pretty total)
                            ++ QStringLiteral " image(s)...")%list;
           task_progress := task_progress u1;
           results_display := results_display u1; detached := detached u1 |} in
      foldl (add_file files) u2 selected_files
  end.

(** the request a thread hands to [extractFromImage] (part_000 221-222) *)
Definition thread_request (u : TextExtractionUI) (th : extraction_thread)
  : ProcessImageRequest :=
  extraction_request (client_session_id_ u) (current_batch_id th)
    (full_path th) (image_content th).

Definition with_thread (u : TextExtractionUI) (i : nat) (th : extraction_thread)
  : TextExtractionUI :=
  {| client_session_id_ := client_session_id_ u; job_sequence_ := job_sequence_ u;
     total_tasks_ := total_tasks_ u; completed_tasks_ := completed_tasks_ u;
     status_label := status_label u; task_progress := task_progress u;
     results_display := results_display u;
     detached := <[i := th]> (detached u) |}.

Definition ran_one (th : extraction_thread) : extraction_thread :=
  {| current_row := current_row th; full_path := full_path th;
     image_content := image_content th; current_batch_id := current_batch_id th;
     calls_run := S (calls_run th) |}.

(** part_000 209-219: the GUI thread runs the next of the 21 calls thread [i]
    queues before its remote call: "Processing...", then 20 progress updates *)
Definition run_queued_call (i : nat) (u : TextExtractionUI) : option TextExtractionUI :=
  match detached u !! i with
  | Some th =>
      match calls_run th with
      | O =>
          Some (with_thread
                  {| client_session_id_ := client_session_id_ u;
                     job_sequence_ := job_sequence_ u;
                     total_tasks_ := total_tasks_ u;
                     completed_tasks_ := completed_tasks_ u;
                     status_label := status_label u; task_progress := task_progress u;
                     results_display :=
                       set_status (current_row th) (QStringLiteral "Processing...")
                         (results_display u);
                     detached := detached u |} i (ran_one th))
      | S step =>
          if (step <? 20)%nat
          then Some (with_thread (updateSmoothProgress (Z.of_nat step) 20 u) i (ran_one th))
          else None
      end
  | None => None
  end.

(** part_000 224-245: the rows after the last queued call of a thread *)
Definition show_result (row : nat) (extraction_result : ProcessImageResponse)
    (rows : list (QString * QString)) : list (QString * QString) :=
  if ok extraction_result then
    set_text row (text_preview (text extraction_result))
      (set_status row (QStringLiteral "Completed") rows)
  else
    set_text row []
      (set_status row
         (QStringLiteral "Error: " ++ fromStdString (message extraction_result))%list rows).

(** part_000 221-247: thread [i], all its earlier calls run, gets the outcome
    of the remote call, and the GUI thread runs its last queued call; the
    thread is gone afterwards *)
Definition deliver_result (i : nat) (operation_status : grpc_Status)
    (extraction_response : ProcessImageResponse) (u : TextExtractionUI)
  : option TextExtractionUI :=
  match detached u !! i with
  | Some th =>
      if (calls_run th =? 21)%nat then
        let extraction_result :=
          extractFromImage_result operation_status extraction_response in
        let u1 := updateProgressBar
          {| client_session_id_ := client_session_id_ u;
             job_sequence_ := job_sequence_ u;
             total_tasks_ := total_tasks_ u;
             completed_tasks_ := completed_tasks_ u + 1;
             status_label := status_label u; task_progress := task_progress u;
             results_display :=
               show_result (current_row th) extraction_result (results_display u);
             detached := delete i (detached u) |} in
        Some
          {| client_session_id_ := client_session_id_ u1;
             job_sequence_ := job_sequence_ u1;
             total_tasks_ := total_tasks_ u1;
             completed_tasks_ := completed_tasks_ u1;
             status_label :=
               if total_tasks_ u1 <=? completed_tasks_ u1
               then QStringLiteral "Processing complete" else status_label u1;
             task_progress := task_progress u1;
             results_display := results_display u1;
             detached := detached u1 |}
      else None
  | None => None
  end.

(** what the GUI thread can be asked to do *)
Inductive ui_action : Type :=
  | AddImages (files : string → option (list byte)) (selected_files : list string)
  | ClearAll
  | Queued (i : nat)
  | Result (i : nat) (operation_status : grpc_Status)
           (extraction_response : ProcessImageResponse).

Definition ui_perform (a : ui_action) (u : TextExtractionUI) : option TextExtractionUI :=
  match a with
  | AddImages files selected_files => Some (handleAddImages files selected_files u)
  | ClearAll => Some (resetDisplay u)
  | Queued i => run_queued_call i u
  | Result i operation_status extraction_response =>
      deliver_result i operation_status extraction_response u
  end.

Fixpoint ui_run (sched : list ui_action) (u : TextExtractionUI) : option TextExtractionUI :=
  match sched with
  | [] => Some u
  | a :: rest =>
      match ui_perform a u with Some u' => ui_run rest u' | None => None end
  end.

Definition is_clear (a : ui_action) : bool :=
  match a with ClearAll => true | _ => false end.

Definition is_add (a : ui_action) : bool :=
  match a with AddImages _ _ => true | _ => false end.

Definition is_result (a : ui_action) : bool :=
  match a with Result _ _ _ => true | _ => false end.

(** the states of the window, and those reached without "Clear All" *)
Definition ui_reachable (u : TextExtractionUI) : Prop :=
  ∃ sched, ui_run sched TextExtractionUI_new = Some u.

Definition ui_reachable_without_clear (u : TextExtractionUI) : Prop :=
  ∃ sched, forallb (λ a, negb (is_clear a)) sched = true ∧
           ui_run sched TextExtractionUI_new = Some u.

(** a row whose file is still being worked on *)
Definition row_pending (cells : QString * QString) : Prop :=
  (fst cells = QStringLiteral "Waiting..." ∨ fst cells = QStringLiteral "Processing...") ∧
  snd cells = [].

(** what holds of the window whatever the user does *)
Record ui_consistent (u : TextExtractionUI) : Prop := {
  rows_are_total : Z.of_nat (length (results_display u)) = total_tasks_ u;
  completed_nonneg : 0 ≤ completed_tasks_ u;
  total_accounted :
    total_tasks_ u ≤ completed_tasks_ u + Z.of_nat (length (detached u));
  progress_bounded : task_progress u ≤ 100;
  session_fixed : client_session_id_ u = "session_1" ∧ job_sequence_ u = 0;
  threads_sound : ∀ th, th ∈ detached u →
    current_batch_id th = "0" ∧ (calls_run th ≤ 21)%nat;
}.

(** what holds in addition as long as "Clear All" is not used *)
Record ui_rows_owned (u : TextExtractionUI) : Prop := {
  all_accounted :
    completed_tasks_ u + Z.of_nat (length (detached u)) = total_tasks_ u;
  rows_distinct : NoDup (current_row <$> detached u);
  rows_pending : ∀ th, th ∈ detached u →
    ∃ cells, results_display u !! current_row th = Some cells ∧ row_pending cells;
}.

(** the same two, inside the loop of [handleAddImages] with [k] of the
    selected files still to come: [total_tasks_] already counts them *)
Record ui_consistent_in_loop (k : Z) (u : TextExtractionUI) : Prop := {
  loop_rows : Z.of_nat (length (results_display u)) + k = total_tasks_ u;
  loop_completed : 0 ≤ completed_tasks_ u;
  loop_total :
    total_tasks_ u ≤ completed_tasks_ u + Z.of_nat (length (detached u)) + k;
  loop_progress : task_progress u ≤ 100;
  loop_session : client_session_id_ u = "session_1" ∧ job_sequence_ u = 0;
  loop_threads : ∀ th, th ∈ detached u →
    current_batch_id th = "0" ∧ (calls_run th ≤ 21)%nat;
}.

Record ui_rows_owned_in_loop (k : Z) (u : TextExtractionUI) : Prop := {
  loop_accounted :
    completed_tasks_ u + Z.of_nat (length (detached u)) + k = total_tasks_ u;
  loop_distinct : NoDup (current_row <$> detached u);
  loop_pending : ∀ th, th ∈ detached u →
    ∃ cells, results_display u !! current_row th = Some cells ∧ row_pending cells;
}.

End Client.

(** ** A test double for the two libraries

    Used for the concrete runs below.  A pixel buffer is the byte sequence
    itself; the engine remembers the image it was given.  The first byte of an
    image selects the behaviour: no bytes at all do not decode, [x01] makes
    recognition raise a [std::exception], [x02] makes it raise something else,
    [x20] is a blank page, anything else reads as "HELLO". *)
Module Double.

Definition read (data : list byte) : thrown (option (list byte)) :=
  match data with
  | [] => Normal None
  | _ => Normal (Some data)
  end.

Definition recognise (e : option (list byte)) : thrown (option string) :=
  match e with
  | Some (x01 :: _) => StdException "bad image"
  | Some (x02 :: _) => UnknownException
  | Some (x20 :: _) => Normal (Some "")
  | Some (_ :: _) => Normal (Some "HELLO")
  | _ => Normal None
  end.

#[export] Instance libs : OcrLibs := {|
  Pix := list byte;
  TessBaseAPI := option (list byte);
  TessBaseAPI_new := None;
  Init := λ e _ _, (e, 0);
  pixReadMem := read;
  pixConvertTo8 := λ p _, Normal (Some p);
  pixGammaTRC := λ _ p _ _ _, Normal p;
  SetImage := λ _ p, (p, Normal tt);
  GetUTF8Text := λ e, (e, recognise e);
|}.

Definition request (name : string) (data : list byte) (l : string) : ProcessImageRequest :=
  {| client_id := "session_1"; batch_id := "0"; filename := name;
     image := data; lang := l |}.

Definition context (d : Z) : ServerContext := {| deadline := d |}.

(** a worker that holds task [t] and whose engine has seen no image yet *)
Definition busy (t : nat) : worker := @Build_worker libs None (Holding t).

(** the state a schedule leads to from a fresh pool at clock 0; a schedule that
    gets stuck leaves the fresh pool *)
Definition after (sched : list action) (worker_count : nat) : Server :=
  default (TaskProcessor 0 worker_count) (run sched (TaskProcessor 0 worker_count)).

(** three requests and two workers, interleaved *)
Definition three_requests : list action :=
  [Request (context 0) (request "a.png" [x41] "eng");
   Request (context 0) (request "b.png" [x42] "eng");
   Take 1;
   Request (context 0) (request "c.png" [x43] "eng");
   Take 0; Finish 1; Take 1].

(** one request whose worker is still busy when 120 seconds have passed *)
Definition slow_request : list action :=
  [Request (context (seconds 120)) (request "a.png" [x41] "eng");
   Take 0; Tick (seconds 120)].

(** one request served in a little over seven milliseconds *)
Definition quick_request : list action :=
  [Request (context (seconds 120)) (request "a.png" [x41] "eng");
   Take 0; Tick 7000001; Finish 0; Tick 400000].

(** a request with no bytes, held by worker 0 *)
Definition undecodable_request : list action :=
  [Request (context (seconds 120)) (request "empty.png" [] "eng"); Take 0].

(** a request whose recognition raises, followed by a good one *)
Definition bad_then_good : list action :=
  [Request (context (seconds 120)) (request "bad.png" [x01] "eng");
   Request (context (seconds 120)) (request "good.png" [x41] "eng");
   Take 0].

(** two requests queued for a single worker that has not been scheduled yet *)
Definition two_queued : list action :=
  [Request (context (seconds 120)) (request "a.png" [x41] "eng");
   Request (context (seconds 120)) (request "b.png" [x20] "eng")].

(** the worker's steps after the shutdown request, up to its return *)
Definition drain : list action := [Take 0; Finish 0; Take 0; Finish 0; Take 0].

(** the same request and the same steps, once with "eng" and once with "fra" *)
Definition served (language : string) : list action :=
  [Request (context (seconds 120)) (request "a.png" [x41] language);
   Take 0; Tick 3000000; Finish 0; Ready 0].

(** a caller that sets a deadline of 5 seconds through the client wrapper;
    ten seconds later nothing has been delivered yet *)
Definition impatient_caller : list action :=
  [Request (client_context 0 (Some 5))
     (extraction_request "session_1" "0" "a.png" [x41]);
   Tick (seconds 10)].

(** a pool of one worker that is shut down before any request has come; the
    worker returns at its next step *)
Definition shut_down : list action := [Stop; Take 0].

(** a request that comes after that, and two minutes of waiting for it *)
Definition late_request : list action :=
  [Request (context (seconds 120)) (request "late.png" [x41] "eng")].

Definition late_wait : list action := [Tick (seconds 120); Timeout 0].

End Double.

(** ** A test double for Qt

    Letters are the ASCII letters, spaces the ASCII white space, a
    [std::string] is decoded byte by byte, and the percentages are computed on
    integers. *)
Module QtDouble.

Definition letter (ch : N) : bool :=
  ((65 <=? ch) && (ch <=? 90) || (97 <=? ch) && (ch <=? 122))%N.

Definition space (ch : N) : bool :=
  ((ch =? 32) || (9 <=? ch) && (ch <=? 13))%N.

#[export] Instance qt : QtText := {|
  isLetter := letter;
  isSpace := space;
  fromStdString := QStringLiteral;
  percent_of := λ completed total, Z.quot (completed * 100) total;
  smooth_percent_of := λ completed total step steps_total,
    Z.quot (completed * 100) total + Z.quot ((step + 1) * 100) (steps_total * total);
|}.

(** a folder with one readable file *)
Definition folder (path : string) : option (list byte) :=
  if String.eqb path "a.png" then Some [x41] else None.

Definition transport_ok : grpc_Status := {| status_ok := true; error_message := "" |}.

Definition transport_down : grpc_Status :=
  {| status_ok := false; error_message := "failed to connect" |}.

Definition replied (t : string) : ProcessImageResponse :=
  {| ok := true; text := t; message := ""; processing_time_ms := 12 |}.

(** the 21 queued calls of thread [i] *)
Definition queued_calls (i : nat) : list ui_action := replicate 21 (Queued i).

(** the window a schedule leads to from a new one; a schedule that gets stuck
    leaves the new window *)
Definition window_after (sched : list ui_action) : TextExtractionUI :=
  default TextExtractionUI_new (ui_run sched TextExtractionUI_new).

(** two files are chosen, of which the second cannot be read; the thread of the
    first runs its queued calls *)
Definition one_of_two : list ui_action :=
  AddImages folder ["a.png"; "missing.png"] :: queued_calls 0.

(** one file is chosen and its thread has shown "Processing..." *)
Definition one_started : list ui_action :=
  [AddImages folder ["a.png"]; Queued 0].

(** the rest of that thread's calls and its result *)
Definition one_finishing : list ui_action :=
  (replicate 20 (Queued 0) ++ [Result 0 transport_ok (replied "HELLO")])%list.

End QtDouble.

(** * Properties *)

Section Properties.
Context `{L : OcrLibs}.
Implicit Types (s : Server) (w h t : nat).

(** ** Shape of each step *)

Lemma worker_take_inv w s s' :
  worker_take w s = Some s' →
  ∃ wk, workers_ s !! w = Some wk ∧ at_ wk = AtWait ∧
    ((shutdown_requested_ s = true ∧ pending_tasks_ s = [] ∧
      s' = {| steady_clock := steady_clock s; tasks := tasks s;
              pending_tasks_ := pending_tasks_ s;
              shutdown_requested_ := shutdown_requested_ s;
              workers_ := <[w := {| ocr_engine := ocr_engine wk; at_ := Returned |}]>
                          (workers_ s);
              handlers := handlers s; queue_log := queue_log s |})
     ∨ (∃ t rest, pending_tasks_ s = t :: rest ∧
      s' = {| steady_clock := steady_clock s; tasks := tasks s;
              pending_tasks_ := rest;
              shutdown_requested_ := shutdown_requested_ s;
              workers_ := <[w := {| ocr_engine := ocr_engine wk; at_ := Holding t |}]>
                          (workers_ s);
              handlers := handlers s;
              queue_log := queue_log s ++ [Dequeued w t] |})).
Proof.
  unfold worker_take, wait_predicate, exit_condition, queue_empty, set_worker.
  intros H. destruct (workers_ s !! w) as [wk|] eqn:Hw; [|done].
  exists wk. destruct (at_ wk) eqn:Hat; try done.
  split; [done|]. split; [done|].
  destruct (pending_tasks_ s) as [|t rest] eqn:Hp;
    destruct (shutdown_requested_ s) eqn:Hs; simpl in H; simplify_eq.
  - by left.
  - right. eauto.
  - right. eauto.
Qed.

Lemma worker_finish_inv w s s' :
  worker_finish w s = Some s' →
  ∃ wk t task, workers_ s !! w = Some wk ∧ at_ wk = Holding t ∧
    tasks s !! t = Some task ∧
    s' = {| steady_clock := steady_clock s;
            tasks := <[t := with_promise task
                         (deliver (text_promise task)
                            (snd (extract_text task (ocr_engine wk))))]> (tasks s);
            pending_tasks_ := pending_tasks_ s;
            shutdown_requested_ := shutdown_requested_ s;
            workers_ := <[w := {| ocr_engine := fst (fst (extract_text task (ocr_engine wk)));
                                  at_ := AtWait |}]> (workers_ s);
            handlers := handlers s; queue_log := queue_log s |}.
Proof.
  unfold worker_finish, set_worker. intros H.
  destruct (workers_ s !! w) as [wk|] eqn:Hw; [|done].
  destruct (at_ wk) as [|t|] eqn:Hat; try done.
  destruct (tasks s !! t) as [task|] eqn:Ht; [|done].
  destruct (extract_text task (ocr_engine wk)) as [[e tr] txt] eqn:He.
  simplify_eq. exists wk, t, task. by rewrite He.
Qed.

Lemma ProcessImage_submit_eq context request s :
  ProcessImage_submit context request s =
  Some {| steady_clock := steady_clock s;
          tasks := tasks s ++
            [with_promise (new_task_of request (steady_clock s))
               {| shared_value := None; reader := FutureWaiting |}];
          pending_tasks_ := pending_tasks_ s ++ [length (tasks s)];
          shutdown_requested_ := shutdown_requested_ s;
          workers_ := workers_ s;
          handlers := handlers s ++ [InWaitFor (length (tasks s)) (steady_clock s)];
          queue_log := queue_log s ++ [Submitted (length (tasks s))] |}.
Proof. reflexivity. Qed.

Lemma ProcessImage_ready_inv h s s' :
  ProcessImage_ready h s = Some s' →
  ∃ t wait_start task result_text,
    handlers s !! h = Some (InWaitFor t wait_start) ∧
    tasks s !! t = Some task ∧
    shared_value (text_promise task) = Some result_text ∧
    s' = reply h t task FutureConsumed
           (completed_response result_text (steady_clock s) (task_start_time task)) s.
Proof.
  unfold ProcessImage_ready. intros H.
  destruct (handlers s !! h) as [[t ws|]|] eqn:Hh; try done.
  destruct (tasks s !! t) as [task|] eqn:Ht; [|done].
  destruct (shared_value (text_promise task)) as [txt|] eqn:Hv; [|done].
  simplify_eq. by exists t, ws, task, txt.
Qed.

Lemma ProcessImage_timeout_inv h s s' :
  ProcessImage_timeout h s = Some s' →
  ∃ t wait_start task,
    handlers s !! h = Some (InWaitFor t wait_start) ∧
    tasks s !! t = Some task ∧
    shared_value (text_promise task) = None ∧
    wait_bound ≤ steady_clock s - wait_start ∧
    s' = reply h t task FutureAbandoned timeout_response s.
Proof.
  unfold ProcessImage_timeout. intros H.
  destruct (handlers s !! h) as [[t ws|]|] eqn:Hh; try done.
  destruct (tasks s !! t) as [task|] eqn:Ht; [|done].
  destruct (shared_value (text_promise task)) as [txt|] eqn:Hv; [done|].
  destruct (wait_bound <=? steady_clock s - ws) eqn:Hb; [|done].
  simplify_eq. exists t, ws, task. repeat split; try done. by apply Z.leb_le.
Qed.

Lemma tick_inv d s s' :
  tick d s = Some s' →
  0 < d ∧
  s' = {| steady_clock := steady_clock s + d; tasks := tasks s;
          pending_tasks_ := pending_tasks_ s;
          shutdown_requested_ := shutdown_requested_ s;
          workers_ := workers_ s; handlers := handlers s;
          queue_log := queue_log s |}.
Proof.
  unfold tick. destruct (0 <? d) eqn:Hd; [|done].
  intros; simplify_eq. split; [by apply Z.ltb_lt|done].
Qed.

(** ** The log projections *)

Lemma submitted_app (l1 l2 : list queue_event) :
  submitted (l1 ++ l2) = (submitted l1 ++ submitted l2)%list.
Proof. induction l1 as [|[t|w t] l1 IH]; simpl; [done| |done]. by rewrite IH. Qed.

Lemma dequeued_app (l1 l2 : list queue_event) :
  dequeued (l1 ++ l2) = (dequeued l1 ++ dequeued l2)%list.
Proof. induction l1 as [|[t|w t] l1 IH]; simpl; [done|done|]. by rewrite IH. Qed.

Lemma removers_app t (l1 l2 : list queue_event) :
  removers t (l1 ++ l2) = (removers t l1 ++ removers t l2)%list.
Proof.
  induction l1 as [|[t'|w t'] l1 IH]; simpl; [done|done|].
  destruct (Nat.eqb t t'); simpl; by rewrite IH.
Qed.

(** ** The invariant holds in every reachable state *)

Lemma unwritten_lt s t : unwritten s t → (t < length (tasks s))%nat.
Proof. intros (task & Ht & _). by eapply lookup_lt_Some. Qed.

Lemma invariant_init now worker_count : invariant (TaskProcessor now worker_count).
Proof.
  split; simpl; try done.
  - intros w1 w2 t [wk [Hw Hat]].
    apply lookup_replicate in Hw as [-> _]. done.
  - intros w t [wk [Hw Hat]].
    apply lookup_replicate in Hw as [-> _]. done.
  - intros w t [wk [Hw Hat]].
    apply lookup_replicate in Hw as [-> _]. done.
  - intros t Ht. by apply elem_of_nil in Ht.
  - intros w wk Hw Hat. apply lookup_replicate in Hw as [-> _]. done.
Qed.

Lemma invariant_submit context request s s' :
  invariant s → ProcessImage_submit context request s = Some s' → invariant s'.
Proof.
  intros I. rewrite ProcessImage_submit_eq. intros [= <-].
  split; simpl.
  - rewrite submitted_app, dequeued_app. simpl.
    rewrite (inv_log s I). by rewrite app_nil_r, app_assoc.
  - rewrite submitted_app, length_app. simpl.
    rewrite (inv_alloc s I), seq_app. done.
  - intros t task Ht. apply lookup_app_Some in Ht as [Ht|[_ Ht]].
    + by eapply inv_clock.
    + apply list_lookup_singleton_Some in Ht as [_ <-]. simpl. lia.
  - rewrite !length_app. simpl. by rewrite (inv_calls s I).
  - intros h t ws Hh.
    apply lookup_app_Some in Hh as [Hh|[Hge Hh]].
    + by eapply inv_wait.
    + apply list_lookup_singleton_Some in Hh as [Hz [= <- <-]].
      rewrite <- (inv_calls s I). split; lia.
  - apply (inv_one_holder s I).
  - intros w t Hw Hin. apply elem_of_app in Hin as [Hin|Hin].
    + by eapply inv_held_not_pending.
    + apply list_elem_of_singleton in Hin as ->.
      apply (inv_held_unwritten s I), unwritten_lt in Hw. lia.
  - intros w t Hw. destruct (inv_held_unwritten s I _ _ Hw) as (task & Ht & Hv).
    exists task. split; [|done]. simpl. by apply lookup_app_l_Some.
  - intros t Hin. apply elem_of_app in Hin as [Hin|Hin].
    + destruct (inv_pending_unwritten s I _ Hin) as (task & Ht & Hv).
      exists task. split; [|done]. simpl. by apply lookup_app_l_Some.
    + apply list_elem_of_singleton in Hin as ->. eexists. split.
      * simpl. apply list_lookup_middle. done.
      * done.
  - apply (inv_returned s I).
Qed.

Lemma holds_after_set s w wk e pc' (ws : list worker) :
  workers_ s !! w = Some wk →
  ws = <[w := {| ocr_engine := e; at_ := pc' |}]> (workers_ s) →
  ∀ w' t, (∃ wk', ws !! w' = Some wk' ∧ at_ wk' = Holding t) ↔
          (w' = w ∧ pc' = Holding t) ∨ (w' ≠ w ∧ holds s w' t).
Proof.
  intros Hw -> w' t. unfold holds. split.
  - intros (wk' & Hl & Hat).
    apply list_lookup_insert_Some in Hl as [(-> & <- & _)|[Hne Hl]].
    + by left.
    + right. eauto.
  - intros [[-> ->]|[Hne (wk' & Hl & Hat)]].
    + eexists. split; [apply list_lookup_insert_eq; by eapply lookup_lt_Some|done].
    + exists wk'. split; [|done]. by rewrite list_lookup_insert_ne.
Qed.

Lemma pending_NoDup s : invariant s → NoDup (pending_tasks_ s).
Proof.
  intros I. pose proof (NoDup_seq 0 (length (tasks s))) as Hnd.
  rewrite <- (inv_alloc s I), (inv_log s I) in Hnd.
  by apply NoDup_app in Hnd as (_ & _ & Hnd).
Qed.

Lemma invariant_take w s s' :
  invariant s → worker_take w s = Some s' → invariant s'.
Proof.
  intros I Htake.
  apply worker_take_inv in Htake
    as (wk & Hw & Hat & [(Hsd & Hp & ->)|(t & rest & Hp & ->)]).
  - pose proof (holds_after_set s w wk (ocr_engine wk) Returned _ Hw eq_refl) as Hh.
    split; simpl; try apply I.
    + intros w1 w2 t H1 H2. apply Hh in H1 as [[_ ?]|[_ H1]]; [done|].
      apply Hh in H2 as [[_ ?]|[_ H2]]; [done|]. by eapply inv_one_holder.
    + intros w' t H1. apply Hh in H1 as [[_ ?]|[_ H1]]; [done|].
      by eapply inv_held_not_pending.
    + intros w' t H1. apply Hh in H1 as [[_ ?]|[_ H1]]; [done|].
      by eapply (inv_held_unwritten s I).
    + intros w' wk' Hl _. done.
  - pose proof (holds_after_set s w wk (ocr_engine wk) (Holding t) _ Hw eq_refl) as Hh.
    pose proof (pending_NoDup s I) as Hnd. rewrite Hp in Hnd.
    apply NoDup_cons in Hnd as [Hnotin Hnd].
    assert (Hsub : ∀ x, x ∈ rest → x ∈ pending_tasks_ s).
    { intros x Hx. rewrite Hp. by apply elem_of_cons; right. }
    assert (Hhead : t ∈ pending_tasks_ s).
    { rewrite Hp. by apply elem_of_cons; left. }
    split; simpl.
    + rewrite submitted_app, dequeued_app. simpl.
      rewrite (inv_log s I), Hp, app_nil_r, <- app_assoc. done.
    + rewrite submitted_app. simpl. rewrite app_nil_r. apply I.
    + apply I.
    + apply I.
    + apply I.
    + intros w1 w2 t' H1 H2.
      apply Hh in H1 as [[-> Ht1]|[Hn1 H1]];
        apply Hh in H2 as [[-> Ht2]|[Hn2 H2]]; simplify_eq; try done.
      * by apply (inv_held_not_pending s I) in H2.
      * by apply (inv_held_not_pending s I) in H1.
      * by eapply inv_one_holder.
    + intros w' t' H1 Hin. apply Hh in H1 as [[-> [= <-]]|[Hn1 H1]]; [done|].
      apply (inv_held_not_pending s I) in H1. apply H1. by apply Hsub.
    + intros w' t' H1. apply Hh in H1 as [[-> [= <-]]|[Hn1 H1]].
      * by apply (inv_pending_unwritten s I).
      * by apply (inv_held_unwritten s I) in H1.
    + intros t' Hin. apply (inv_pending_unwritten s I). by apply Hsub.
    + intros w' wk' Hl Hr.
      apply list_lookup_insert_Some in Hl as [(-> & <- & _)|[Hne Hl]]; [done|].
      by eapply inv_returned.
Qed.

Lemma invariant_finish w s s' :
  invariant s → worker_finish w s = Some s' → invariant s'.
Proof.
  intros I Hfin.
  apply worker_finish_inv in Hfin as (wk & t & task & Hw & Hat & Ht & ->).
  pose proof (holds_after_set s w wk
    (fst (fst (extract_text task (ocr_engine wk)))) AtWait _ Hw eq_refl) as Hh.
  assert (Hwt : holds s w t) by (by exists wk).
  assert (Hkeep : ∀ w' t', w' ≠ w → holds s w' t' → t' ≠ t).
  { intros w' t' Hne H1 ->. apply Hne. by eapply inv_one_holder. }
  split; simpl.
  - apply I.
  - rewrite length_insert. apply I.
  - intros t' task' Hl.
    apply list_lookup_insert_Some in Hl as [(-> & <- & _)|[Hne Hl]].
    + simpl. by eapply inv_clock.
    + by eapply inv_clock.
  - rewrite length_insert. apply I.
  - apply (inv_wait s I).
  - intros w1 w2 t' H1 H2. apply Hh in H1 as [[_ ?]|[_ H1]]; [done|].
    apply Hh in H2 as [[_ ?]|[_ H2]]; [done|]. by eapply inv_one_holder.
  - intros w' t' H1. apply Hh in H1 as [[_ ?]|[_ H1]]; [done|].
    by eapply inv_held_not_pending.
  - intros w' t' H1. apply Hh in H1 as [[_ ?]|[Hne H1]]; [done|].
    destruct (inv_held_unwritten s I _ _ H1) as (task' & Hl & Hv).
    exists task'. split; [|done]. simpl.
    rewrite list_lookup_insert_ne; [done|]. intros ->. by eapply Hkeep.
  - intros t' Hin.
    destruct (inv_pending_unwritten s I _ Hin) as (task' & Hl & Hv).
    exists task'. split; [|done]. simpl.
    rewrite list_lookup_insert_ne; [done|]. intros ->.
    by eapply inv_held_not_pending.
  - intros w' wk' Hl Hr.
    apply list_lookup_insert_Some in Hl as [(-> & <- & _)|[Hne Hl]]; [done|].
    by eapply inv_returned.
Qed.

Lemma unwritten_reply h t task r response s t' :
  tasks s !! t = Some task →
  unwritten s t' → unwritten (reply h t task r response s) t'.
Proof.
  intros Ht (task' & Hl & Hv). unfold unwritten. simpl.
  destruct (decide (t = t')) as [->|Hne].
  - eexists. split.
    + apply list_lookup_insert_eq. by eapply lookup_lt_Some.
    + simpl. by simplify_eq.
  - exists task'. by rewrite list_lookup_insert_ne.
Qed.

Lemma invariant_reply h t ws task r response s :
  invariant s → handlers s !! h = Some (InWaitFor t ws) →
  tasks s !! t = Some task → invariant (reply h t task r response s).
Proof.
  intros I Hh Ht. split.
  - apply I.
  - simpl. rewrite length_insert. apply I.
  - simpl. intros t' task' Hl.
    apply list_lookup_insert_Some in Hl as [(-> & <- & _)|[Hne Hl]].
    + simpl. by eapply inv_clock.
    + by eapply inv_clock.
  - simpl. rewrite !length_insert. apply I.
  - simpl. intros h' t' ws' Hl.
    apply list_lookup_insert_Some in Hl as [(-> & ? & _)|[Hne Hl]]; [done|].
    by eapply inv_wait.
  - apply (inv_one_holder s I).
  - apply (inv_held_not_pending s I).
  - intros w t' H1. apply unwritten_reply; [done|].
    by apply (inv_held_unwritten s I) in H1.
  - intros t' Hin. apply unwritten_reply; [done|].
    by apply (inv_pending_unwritten s I).
  - apply (inv_returned s I).
Qed.

Lemma invariant_step s s' : invariant s → step s s' → invariant s'.
Proof.
  intros I [a Ha]. destruct a as [context request|w|w|h|h| |d]; simpl in Ha.
  - by eapply invariant_submit.
  - by eapply invariant_take.
  - by eapply invariant_finish.
  - apply ProcessImage_ready_inv in Ha as (t & ws & task & txt & Hh & Ht & _ & ->).
    by eapply invariant_reply.
  - apply ProcessImage_timeout_inv in Ha as (t & ws & task & Hh & Ht & _ & _ & ->).
    by eapply invariant_reply.
  - injection Ha as <-. unfold stopProcessing.
    destruct (shutdown_requested_ s) eqn:Hs; [done|].
    split; simpl; try apply I. done.
  - apply tick_inv in Ha as [Hd ->]. split; simpl; try apply I.
    + intros t task Ht. pose proof (inv_clock s I _ _ Ht). lia.
    + intros h t ws Hh. destruct (inv_wait s I _ _ _ Hh). split; [done|lia].
Qed.

Lemma invariant_steps s s' : invariant s → rtc step s s' → invariant s'.
Proof. intros I Hs. induction Hs; eauto using invariant_step. Qed.

Lemma invariant_reachable s : reachable s → invariant s.
Proof.
  intros (now & n & Hs). eapply invariant_steps; [|done]. apply invariant_init.
Qed.

Lemma reachable_step s s' : reachable s → step s s' → reachable s'.
Proof. intros (now & n & Hs) Hstep. exists now, n. by eapply rtc_r. Qed.

Lemma reachable_steps s s' : reachable s → rtc step s s' → reachable s'.
Proof. intros (now & n & Hs) Hsteps. exists now, n. by etrans. Qed.

Lemma run_steps sched s s' : run sched s = Some s' → rtc step s s'.
Proof.
  revert s. induction sched as [|a rest IH]; simpl; intros s Hr.
  - by injection Hr as ->.
  - destruct (perform a s) as [s1|] eqn:Ha; [|done].
    eapply rtc_l; [by exists a|]. by apply IH.
Qed.

Lemma run_reachable now worker_count sched s :
  run sched (TaskProcessor now worker_count) = Some s → reachable s.
Proof. intros Hr. exists now, worker_count. by eapply run_steps. Qed.

(** ** The queue *)

Lemma removers_not_dequeued t (log : list queue_event) :
  t ∉ dequeued log → removers t log = [].
Proof.
  induction log as [|[t'|w t'] log IH]; simpl; intros Hn; [done|by apply IH|].
  apply not_elem_of_cons in Hn as [Hne Hn].
  destruct (Nat.eqb_spec t t') as [->|_]; [done|by apply IH].
Qed.

Lemma removers_once t (log : list queue_event) :
  NoDup (dequeued log) → t ∈ dequeued log → ∃ w, removers t log = [w].
Proof.
  induction log as [|[t'|w t'] log IH]; simpl; intros Hnd Hin.
  - by apply elem_of_nil in Hin.
  - by apply IH.
  - apply NoDup_cons in Hnd as [Hfresh Hnd].
    destruct (Nat.eqb_spec t t') as [->|Hne].
    + exists w. by rewrite removers_not_dequeued.
    + apply elem_of_cons in Hin as [->|Hin]; [done|by apply IH].
Qed.

(** C1.  In every reachable state, whatever the number of workers and the
    interleaving: the tasks removed so far, in removal order, followed by the
    tasks still queued, are exactly the tasks submitted, in submission order
    (so removal order is submission order and nothing is lost); no task was
    submitted twice; a submitted task is either still queued and was removed by
    nobody, or is no longer queued and was removed exactly once, by one worker;
    and a worker that removes a task gets the oldest submitted task that was
    not removed before. *)
Theorem queue_is_fifo s :
  reachable s →
  submitted (queue_log s) = (dequeued (queue_log s) ++ pending_tasks_ s)%list ∧
  NoDup (submitted (queue_log s)) ∧
  (∀ t, t ∈ submitted (queue_log s) →
     (t ∈ pending_tasks_ s ∧ removers t (queue_log s) = []) ∨
     ((t ∉ pending_tasks_ s) ∧ ∃ w, removers t (queue_log s) = [w])) ∧
  (∀ w s' t, worker_take w s = Some s' → holds s' w t →
     submitted (queue_log s) !! (length (dequeued (queue_log s))) = Some t ∧
     dequeued (queue_log s') = (dequeued (queue_log s) ++ [t])%list ∧
     removers t (queue_log s') = [w]).
Proof.
  intros Hr. pose proof (invariant_reachable s Hr) as I.
  assert (Hnd : NoDup (submitted (queue_log s))).
  { rewrite (inv_alloc s I). apply NoDup_seq. }
  pose proof Hnd as Hnd'. rewrite (inv_log s I) in Hnd'.
  apply NoDup_app in Hnd' as (Hd & Hdisj & Hp).
  split; [apply I|]. split; [done|]. split.
  - intros t Hin. rewrite (inv_log s I) in Hin.
    apply elem_of_app in Hin as [Hin|Hin].
    + right. split; [by apply Hdisj|]. by apply removers_once.
    + left. split; [done|]. apply removers_not_dequeued.
      intros Hin'. by apply (Hdisj t).
  - intros w s' t Htake Hh.
    apply worker_take_inv in Htake
      as (wk & Hw & Hat & [(Hsd & Hpe & ->)|(t' & rest & Hpe & ->)]).
    + destruct Hh as (wk' & Hl & Hat'). simpl in Hl.
      rewrite list_lookup_insert_eq in Hl by (by eapply lookup_lt_Some).
      by simplify_eq.
    + destruct Hh as (wk' & Hl & Hat'). simpl in Hl.
      rewrite list_lookup_insert_eq in Hl by (by eapply lookup_lt_Some).
      simplify_eq. simpl in *. simplify_eq. split; [|split].
      * rewrite (inv_log s I), Hpe. by apply list_lookup_middle.
      * rewrite dequeued_app. simpl. done.
      * rewrite removers_app. simpl. rewrite Nat.eqb_refl.
        rewrite removers_not_dequeued; [done|].
        intros Hin. apply (Hdisj t Hin). rewrite Hpe. by apply elem_of_cons; left.
Qed.

(** ** Shutdown *)

(** the six ways a step can go, with the shape of the state it leaves *)
Ltac step_cases Hstep :=
  let a := fresh "a" in
  let Ha := fresh "Ha" in
  destruct Hstep as [a Ha];
  destruct a as [?context ?request|?w|?w|?h|?h| |?d]; simpl in Ha;
  [ rewrite ProcessImage_submit_eq in Ha; injection Ha as <-
  | apply worker_take_inv in Ha
      as (?wk & ?Hw & ?Hat & [(?Hsd & ?Hpe & ->)|(?t & ?rest & ?Hpe & ->)])
  | apply worker_finish_inv in Ha as (?wk & ?t & ?task & ?Hw & ?Hat & ?Ht & ->)
  | apply ProcessImage_ready_inv in Ha
      as (?t & ?ws & ?task & ?txt & ?Hh & ?Ht & ?Hv & ->)
  | apply ProcessImage_timeout_inv in Ha
      as (?t & ?ws & ?task & ?Hh & ?Ht & ?Hv & ?Hb & ->)
  | injection Ha as <-; unfold stopProcessing in *;
    destruct (shutdown_requested_ _) eqn:?Hsd
  | apply tick_inv in Ha as [?Hd ->] ].

Lemma step_logs s s' :
  step s s' →
  submitted (queue_log s) `prefix_of` submitted (queue_log s') ∧
  dequeued (queue_log s) `prefix_of` dequeued (queue_log s').
Proof.
  intros Hstep. step_cases Hstep; simpl;
    rewrite ?submitted_app, ?dequeued_app; simpl; rewrite ?app_nil_r;
    split; try done; by apply prefix_app_r.
Qed.

Lemma steps_logs s s' :
  rtc step s s' →
  submitted (queue_log s) `prefix_of` submitted (queue_log s') ∧
  dequeued (queue_log s) `prefix_of` dequeued (queue_log s').
Proof.
  induction 1 as [|s1 s2 s3 H12 _ [IH1 IH2]]; [done|].
  apply step_logs in H12 as [H1 H2]. split; by etrans.
Qed.

(** a worker found returned after a step either had returned before, or has
    just seen the flag set and the queue empty *)
Lemma step_returned s s' w wk' :
  step s s' → workers_ s' !! w = Some wk' → at_ wk' = Returned →
  (∃ wk, workers_ s !! w = Some wk ∧ at_ wk = Returned) ∨
  (shutdown_requested_ s = true ∧ pending_tasks_ s = [] ∧ queue_log s' = queue_log s).
Proof.
  intros Hstep Hl Hr. step_cases Hstep; simpl in *; eauto;
    apply list_lookup_insert_Some in Hl as [(-> & <- & _)|[Hne Hl]];
    simpl in Hr; try done; eauto.
Qed.

Lemma stopProcessing_step s : step s (fst (stopProcessing s)).
Proof. by exists Stop. Qed.

Lemma some_returned_drained s0 s s' :
  invariant s →
  submitted (queue_log s0) `prefix_of` submitted (queue_log s) →
  ((∃ w wk, workers_ s !! w = Some wk ∧ at_ wk = Returned) →
   submitted (queue_log s0) `prefix_of` dequeued (queue_log s)) →
  step s s' →
  (∃ w wk, workers_ s' !! w = Some wk ∧ at_ wk = Returned) →
  submitted (queue_log s0) `prefix_of` dequeued (queue_log s').
Proof.
  intros I Hpre Hold Hstep (w & wk' & Hl & Hr).
  destruct (step_returned s s' w wk' Hstep Hl Hr)
    as [(wk & Hl0 & Hr0)|(Hsd & Hpe & Hlog)].
  - etrans; [apply Hold; eauto|]. by apply step_logs.
  - rewrite Hlog. pose proof (inv_log s I) as Hq.
    rewrite Hpe, app_nil_r in Hq. by rewrite <- Hq.
Qed.

Lemma step_shutdown s s' :
  step s s' → shutdown_requested_ s = true → shutdown_requested_ s' = true.
Proof. intros Hstep Hsd. step_cases Hstep; simpl; done. Qed.

Lemma wait_predicate_spec s :
  wait_predicate s = true ↔ shutdown_requested_ s = true ∨ pending_tasks_ s ≠ [].
Proof.
  unfold wait_predicate, queue_empty.
  destruct (shutdown_requested_ s), (pending_tasks_ s); simpl;
    intuition (auto; congruence).
Qed.

Lemma exit_condition_spec s :
  exit_condition s = true ↔ shutdown_requested_ s = true ∧ pending_tasks_ s = [].
Proof.
  unfold exit_condition, queue_empty.
  destruct (shutdown_requested_ s), (pending_tasks_ s); simpl;
    intuition (auto; congruence).
Qed.

Lemma worker_take_enabled s w wk :
  workers_ s !! w = Some wk → at_ wk = AtWait →
  (is_Some (worker_take w s) ↔ wait_predicate s = true).
Proof.
  intros Hw Hat. unfold worker_take. rewrite Hw, Hat.
  destruct (wait_predicate s) eqn:Hwp; [|split; [by intros [? ?]|done]].
  split; [done|]. intros _.
  destruct (exit_condition s) eqn:Hex; [done|].
  apply wait_predicate_spec in Hwp.
  destruct (pending_tasks_ s) as [|t rest] eqn:Hp; [|done].
  destruct Hwp as [Hsd|?]; [|done].
  assert (exit_condition s = true); [|congruence].
  by apply exit_condition_spec.
Qed.

Lemma worker_take_exits s w s' :
  worker_take w s = Some s' →
  ((∃ wk', workers_ s' !! w = Some wk' ∧ at_ wk' = Returned) ↔ exit_condition s = true) ∧
  (exit_condition s = false →
   ∃ t rest, pending_tasks_ s = t :: rest ∧ pending_tasks_ s' = rest ∧ holds s' w t).
Proof.
  intros Htake. rewrite exit_condition_spec.
  apply worker_take_inv in Htake
    as (wk & Hw & Hat & [(Hsd & Hpe & ->)|(t & rest & Hpe & ->)]); simpl.
  - rewrite list_lookup_insert_eq by (by eapply lookup_lt_Some).
    split; [split; [done|intros _; eauto]|]. intros Hex.
    assert (exit_condition s = true); [|congruence]. by apply exit_condition_spec.
  - rewrite list_lookup_insert_eq by (by eapply lookup_lt_Some).
    split; [rewrite Hpe; split; [by intros (? & [= <-] & ?)|by intros [_ ?]]|].
    intros _. exists t, rest.
    split; [done|]. split; [done|]. eexists. simpl.
    rewrite list_lookup_insert_eq by (by eapply lookup_lt_Some). done.
Qed.

Lemma joined_spec s :
  joined s = true ↔ ∀ w wk, workers_ s !! w = Some wk → at_ wk = Returned.
Proof.
  unfold joined. rewrite <- Is_true_true, forallb_True, Forall_lookup.
  split; intros H w wk Hl; specialize (H w wk Hl); by destruct (at_ wk).
Qed.

(** C9.  Let [stopProcessing] be called in a reachable state in which shutdown
    was not requested before.  The call sets the flag and touches nothing else,
    and goes on to [notify_all] and the joins; a second call finds the flag set,
    returns at once and changes nothing; every worker blocked in the wait can
    now proceed; the joins are over exactly when every worker has returned.  In
    any state: a worker at the wait proceeds exactly when shutdown is requested
    or the queue is not empty, it returns exactly when shutdown is requested and
    the queue is empty, and otherwise it removes the task at the front.  And in
    every state reached after the call in which some worker has returned (in
    particular when the joins are over and the pool is not empty), every task
    that was queued at the call has been removed from the queue. *)
Theorem stop_drains_queue s :
  reachable s →
  shutdown_requested_ s = false →
  let s1 := fst (stopProcessing s) in
  (stopProcessing s = (s1, true) ∧
   shutdown_requested_ s1 = true ∧
   pending_tasks_ s1 = pending_tasks_ s ∧ workers_ s1 = workers_ s ∧
   tasks s1 = tasks s ∧ handlers s1 = handlers s ∧ queue_log s1 = queue_log s) ∧
  stopProcessing s1 = (s1, false) ∧
  (∀ w wk, workers_ s1 !! w = Some wk → at_ wk = AtWait → is_Some (worker_take w s1)) ∧
  (∀ u, joined u = true ↔ ∀ w wk, workers_ u !! w = Some wk → at_ wk = Returned) ∧
  (∀ u w wk, workers_ u !! w = Some wk → at_ wk = AtWait →
     (is_Some (worker_take w u) ↔
      shutdown_requested_ u = true ∨ pending_tasks_ u ≠ [])) ∧
  (∀ u w u', worker_take w u = Some u' →
     ((∃ wk', workers_ u' !! w = Some wk' ∧ at_ wk' = Returned) ↔
      shutdown_requested_ u = true ∧ pending_tasks_ u = []) ∧
     (pending_tasks_ u ≠ [] →
      ∃ t rest, pending_tasks_ u = t :: rest ∧ pending_tasks_ u' = rest ∧ holds u' w t)) ∧
  (∀ s', rtc step s1 s' →
     shutdown_requested_ s' = true ∧
     ((∃ w wk, workers_ s' !! w = Some wk ∧ at_ wk = Returned) →
      ∀ t, t ∈ pending_tasks_ s → t ∈ dequeued (queue_log s')) ∧
     (joined s' = true → workers_ s' ≠ [] →
      ∀ t, t ∈ pending_tasks_ s → t ∈ dequeued (queue_log s'))).
Proof.
  intros Hr Hsd s1. pose proof (invariant_reachable s Hr) as I.
  assert (Hs1 : stopProcessing s = (s1, true)).
  { subst s1. unfold stopProcessing. by rewrite Hsd. }
  assert (Hflag : shutdown_requested_ s1 = true).
  { subst s1. unfold stopProcessing. by rewrite Hsd. }
  assert (Hsame : pending_tasks_ s1 = pending_tasks_ s ∧ workers_ s1 = workers_ s ∧
                  tasks s1 = tasks s ∧ handlers s1 = handlers s ∧
                  queue_log s1 = queue_log s).
  { subst s1. unfold stopProcessing. by rewrite Hsd. }
  destruct Hsame as (Hp1 & Hw1 & Ht1 & Hh1 & Hl1).
  split; [done|]. split.
  { unfold stopProcessing at 1. by rewrite Hflag. }
  split.
  { intros w wk Hw Hat. apply (worker_take_enabled s1 w wk Hw Hat).
    apply wait_predicate_spec. by left. }
  split; [apply joined_spec|]. split.
  { intros u w wk Hw Hat. rewrite <- wait_predicate_spec.
    by apply (worker_take_enabled u w wk). }
  split.
  { intros u w u' Htake. destruct (worker_take_exits u w u' Htake) as [Hex Hdeq].
    split; [by rewrite <- exit_condition_spec|]. intros Hne. apply Hdeq.
    destruct (exit_condition u) eqn:E; [|done].
    apply exit_condition_spec in E as [_ E]. done. }
  intros s' Hsteps.
  assert (Hall : invariant s' ∧ shutdown_requested_ s' = true ∧
            submitted (queue_log s) `prefix_of` submitted (queue_log s') ∧
            ((∃ w wk, workers_ s' !! w = Some wk ∧ at_ wk = Returned) →
             submitted (queue_log s) `prefix_of` dequeued (queue_log s'))).
  { revert s' Hsteps. apply rtc_ind_r; [|intros s2 s3 H12 H23 IH].
    - split; [eapply invariant_step; [done|apply stopProcessing_step]|].
      split; [done|]. split; [by rewrite Hl1|].
      intros (w & wk & Hw & Hat). rewrite Hw1 in Hw.
      pose proof (inv_returned s I w wk Hw Hat). congruence.
    - destruct IH as (I2 & Hsd2 & Hpre & Hdr).
      split; [by eapply invariant_step|].
      split; [by eapply step_shutdown|].
      split; [etrans; [done|by apply step_logs]|].
      by eapply some_returned_drained. }
  destruct Hall as (I' & Hsd' & Hpre & Hdr).
  assert (Hdrained : (∃ w wk, workers_ s' !! w = Some wk ∧ at_ wk = Returned) →
            ∀ t, t ∈ pending_tasks_ s → t ∈ dequeued (queue_log s')).
  { intros Hsome t Hin. eapply elem_of_prefix; [|by apply Hdr].
    rewrite (inv_log s I). apply elem_of_app. by right. }
  split; [done|]. split; [done|].
  intros Hj Hne. apply Hdrained.
  pose proof (proj1 (joined_spec s') Hj) as Hret.
  destruct (workers_ s') as [|wk ws]; [done|].
  exists 0%nat, wk. split; [done|]. by apply (Hret 0%nat).
Qed.

(** ** The result channel *)

Lemma deliver_written p v v' : shared_value p = Some v → deliver p v' = p.
Proof. unfold deliver, set_value. by intros ->. Qed.

Lemma deliver_unwritten p v :
  shared_value p = None →
  deliver p v = {| shared_value := Some v; reader := reader p |}.
Proof. unfold deliver, set_value. by intros ->. Qed.

Lemma evolves_refl task : evolves task task.
Proof. by repeat split. Qed.

Lemma evolves_trans (a b c : OcrTask) : evolves a b → evolves b c → evolves a c.
Proof.
  intros (?&?&?&?&H12) (?&?&?&?&H23).
  repeat split; try congruence. intros v Hv. by apply H23, H12.
Qed.

Lemma evolves_deliver task v : evolves task (with_promise task (deliver (text_promise task) v)).
Proof.
  repeat split; try done. simpl. intros x Hx. by rewrite (deliver_written _ x).
Qed.

Lemma step_task s s' t task :
  step s s' → tasks s !! t = Some task →
  ∃ task', tasks s' !! t = Some task' ∧ evolves task task'.
Proof.
  intros Hstep Hl.
  step_cases Hstep; simpl; try (exists task; split; [done|apply evolves_refl]).
  - exists task. split; [by apply lookup_app_l_Some|apply evolves_refl].
  - destruct (decide (t0 = t)) as [->|Hne].
    + rewrite list_lookup_insert_eq by (by eapply lookup_lt_Some).
      eexists. split; [done|]. simplify_eq. apply evolves_deliver.
    + rewrite list_lookup_insert_ne by done.
      exists task. split; [done|apply evolves_refl].
  - destruct (decide (t0 = t)) as [->|Hne].
    + rewrite list_lookup_insert_eq by (by eapply lookup_lt_Some).
      eexists. split; [done|]. simplify_eq. by repeat split.
    + rewrite list_lookup_insert_ne by done.
      exists task. split; [done|apply evolves_refl].
  - destruct (decide (t0 = t)) as [->|Hne].
    + rewrite list_lookup_insert_eq by (by eapply lookup_lt_Some).
      eexists. split; [done|]. simplify_eq. by repeat split.
    + rewrite list_lookup_insert_ne by done.
      exists task. split; [done|apply evolves_refl].
Qed.

Lemma steps_task s s' t task :
  rtc step s s' → tasks s !! t = Some task →
  ∃ task', tasks s' !! t = Some task' ∧ evolves task task'.
Proof.
  intros Hsteps. revert task.
  induction Hsteps as [|s1 s2 s3 H12 _ IH]; intros task Hl.
  - exists task. split; [done|apply evolves_refl].
  - destruct (step_task _ _ _ _ H12 Hl) as (task2 & Hl2 & He2).
    destruct (IH _ Hl2) as (task3 & Hl3 & He3).
    exists task3. split; [done|]. by eapply evolves_trans.
Qed.

(** a handler that has replied never changes its reply *)
Lemma step_replied s s' h r :
  step s s' → handlers s !! h = Some (Replied r) → handlers s' !! h = Some (Replied r).
Proof.
  intros Hstep Hl. step_cases Hstep; simpl; try done.
  - by apply lookup_app_l_Some.
  - rewrite list_lookup_insert_ne; [done|]. intros ->. congruence.
  - rewrite list_lookup_insert_ne; [done|]. intros ->. congruence.
Qed.

Lemma steps_replied s s' h r :
  rtc step s s' → handlers s !! h = Some (Replied r) → handlers s' !! h = Some (Replied r).
Proof. induction 1; eauto using step_replied. Qed.

(** the future of a task whose handler gave up stays abandoned *)
Lemma step_abandoned s s' t task r :
  invariant s → step s s' →
  tasks s !! t = Some task → reader (text_promise task) = FutureAbandoned →
  handlers s !! t = Some (Replied r) →
  ∃ task', tasks s' !! t = Some task' ∧ reader (text_promise task') = FutureAbandoned.
Proof.
  intros I Hstep Hl Hrd Hh.
  step_cases Hstep; simpl; try (by exists task).
  - exists task. split; [by apply lookup_app_l_Some|done].
  - destruct (decide (t0 = t)) as [->|Hne].
    + rewrite list_lookup_insert_eq by (by eapply lookup_lt_Some).
      eexists. split; [done|]. simplify_eq. simpl.
      unfold deliver, set_value. by destruct (shared_value (text_promise _)).
    + rewrite list_lookup_insert_ne by done. by exists task.
  - destruct (inv_wait s I _ _ _ Hh0) as [-> _].
    rewrite list_lookup_insert_ne; [by exists task|]. intros ->. congruence.
  - destruct (inv_wait s I _ _ _ Hh0) as [-> _].
    rewrite list_lookup_insert_ne; [by exists task|]. intros ->. congruence.
Qed.

Lemma steps_abandoned s s' t task r :
  invariant s → rtc step s s' →
  tasks s !! t = Some task → reader (text_promise task) = FutureAbandoned →
  handlers s !! t = Some (Replied r) →
  ∃ task', tasks s' !! t = Some task' ∧ reader (text_promise task') = FutureAbandoned.
Proof.
  intros I Hsteps. revert task I.
  induction Hsteps as [|s1 s2 s3 H12 _ IH]; intros task I Hl Hrd Hh.
  - by exists task.
  - destruct (step_abandoned _ _ _ _ _ I H12 Hl Hrd Hh) as (task2 & Hl2 & Hrd2).
    eapply IH; eauto using invariant_step, step_replied.
Qed.

(** what the rest of the loop body does for a worker that holds a task *)
Lemma worker_finish_writes s w wk t task :
  invariant s → workers_ s !! w = Some wk → at_ wk = Holding t →
  tasks s !! t = Some task →
  shared_value (text_promise task) = None ∧
  ∃ s', worker_finish w s = Some s' ∧
    tasks s' !! t =
      Some (with_promise task
              {| shared_value := Some (snd (extract_text task (ocr_engine wk)));
                 reader := reader (text_promise task) |}) ∧
    workers_ s' !! w =
      Some {| ocr_engine := fst (fst (extract_text task (ocr_engine wk)));
              at_ := AtWait |} ∧
    pending_tasks_ s' = pending_tasks_ s ∧ handlers s' = handlers s ∧
    shutdown_requested_ s' = shutdown_requested_ s ∧
    queue_log s' = queue_log s ∧ steady_clock s' = steady_clock s.
Proof.
  intros I Hw Hat Ht.
  assert (Hv : shared_value (text_promise task) = None).
  { destruct (inv_held_unwritten s I w t) as (task' & Ht' & Hv); [by exists wk|].
    by simplify_eq. }
  split; [done|]. unfold worker_finish, set_worker. rewrite Hw, Hat, Ht.
  destruct (extract_text task (ocr_engine wk)) as [[e tr] txt].
  eexists. split; [done|]. simpl.
  rewrite !list_lookup_insert_eq by (by eapply lookup_lt_Some).
  by rewrite deliver_unwritten.
Qed.

(** C2.  On any promise: the first [set_value] stores its value whatever the
    state of the future (abandoned included); once a value is stored,
    [set_value] is rejected with [promise_already_satisfied] and the worker's
    guarded write leaves the promise as it was, so a second write never
    replaces the first value.  In the running server: a stored value survives
    every later step; a worker that holds a task finds its promise empty, so
    it writes once; and when the handler has given up on the task (its future
    is abandoned), the worker's write still succeeds, stores the text, leaves
    every handler as it was, and no later step changes a reply already given:
    the value is never read. *)
Theorem result_written_at_most_once (p : promise) (v v' : string) :
  (shared_value p = None →
   set_value p v = inr {| shared_value := Some v; reader := reader p |}) ∧
  (∀ x, shared_value p = Some x →
     set_value p v' = inl promise_already_satisfied ∧ deliver p v' = p) ∧
  shared_value (deliver (deliver p v) v') = shared_value (deliver p v) ∧
  (∀ s s' t task x, rtc step s s' → tasks s !! t = Some task →
     shared_value (text_promise task) = Some x →
     ∃ task', tasks s' !! t = Some task' ∧
              shared_value (text_promise task') = Some x) ∧
  (∀ s w t, reachable s → holds s w t → unwritten s t) ∧
  (∀ s w wk t task, reachable s → workers_ s !! w = Some wk → at_ wk = Holding t →
     tasks s !! t = Some task → reader (text_promise task) = FutureAbandoned →
     ∃ s', worker_finish w s = Some s' ∧
       tasks s' !! t =
         Some (with_promise task
                 {| shared_value := Some (snd (extract_text task (ocr_engine wk)));
                    reader := FutureAbandoned |}) ∧
       handlers s' = handlers s ∧
       ∀ u h r, rtc step s' u → handlers s' !! h = Some (Replied r) →
                handlers u !! h = Some (Replied r)).
Proof.
  split; [|split; [|split; [|split; [|split]]]].
  - unfold set_value. by intros ->.
  - intros x Hx. split; [unfold set_value; by rewrite Hx|by eapply deliver_written].
  - destruct (shared_value p) as [x|] eqn:Hp.
    + by rewrite !(deliver_written p x).
    + rewrite (deliver_unwritten p v Hp). by rewrite (deliver_written _ v).
  - intros s s' t task x Hsteps Hl Hx.
    destruct (steps_task _ _ _ _ Hsteps Hl) as (task' & Hl' & He).
    exists task'. split; [done|]. by apply He.
  - intros s w t Hr Hh. by eapply inv_held_unwritten; [apply invariant_reachable|].
  - intros s w wk t task Hr Hw Hat Ht Hrd.
    destruct (worker_finish_writes s w wk t task (invariant_reachable s Hr) Hw Hat Ht)
      as (_ & s' & Hfin & Ht' & _ & _ & Hh & _).
    exists s'. split; [done|]. split; [by rewrite Ht', Hrd|]. split; [done|].
    intros u h r Hsteps Hl. by eapply steps_replied.
Qed.

(** ** The handler *)

(** C3.  When the handler's wait ends by timeout in a reachable state (the
    bound has elapsed and no result was delivered), the handler replies with
    [ok = false] and the message "Image processing timeout"; the queue, the
    workers, the shutdown flag and every other task are left as they were, and
    the task itself only has its future marked abandoned: it is neither
    cancelled nor removed.  Whenever afterwards a worker holds that task, the
    rest of its loop body runs, the extracted text is stored in the abandoned
    promise, and the handler's reply stays the timeout reply. *)
Theorem timeout_leaves_task s h s' :
  reachable s →
  ProcessImage_timeout h s = Some s' →
  ∃ t ws task,
    handlers s !! h = Some (InWaitFor t ws) ∧ tasks s !! t = Some task ∧
    shared_value (text_promise task) = None ∧
    seconds 120 ≤ steady_clock s - ws ∧
    handlers s' !! h = Some (Replied timeout_response) ∧
    ok timeout_response = false ∧
    message timeout_response = "Image processing timeout" ∧
    pending_tasks_ s' = pending_tasks_ s ∧ workers_ s' = workers_ s ∧
    shutdown_requested_ s' = shutdown_requested_ s ∧ queue_log s' = queue_log s ∧
    tasks s' !! t =
      Some (with_promise task {| shared_value := None; reader := FutureAbandoned |}) ∧
    (∀ t', t' ≠ t → tasks s' !! t' = tasks s !! t') ∧
    ∀ u w wk, rtc step s' u → workers_ u !! w = Some wk → at_ wk = Holding t →
      ∃ task_u u',
        tasks u !! t = Some task_u ∧ image_data task_u = image_data task ∧
        reader (text_promise task_u) = FutureAbandoned ∧
        worker_finish w u = Some u' ∧
        tasks u' !! t =
          Some (with_promise task_u
                  {| shared_value := Some (snd (extract_text task_u (ocr_engine wk)));
                     reader := FutureAbandoned |}) ∧
        (∃ wk', workers_ u' !! w = Some wk' ∧ at_ wk' = AtWait) ∧
        handlers u' !! h = Some (Replied timeout_response).
Proof.
  intros Hr Hto. pose proof (invariant_reachable s Hr) as I.
  assert (Hr' : reachable s').
  { eapply reachable_step; [done|]. by exists (Timeout h). }
  pose proof (invariant_reachable s' Hr') as I'.
  apply ProcessImage_timeout_inv in Hto as (t & ws & task & Hh & Ht & Hv & Hb & ->).
  destruct (inv_wait s I _ _ _ Hh) as [-> _].
  assert (Hh' : handlers (reply h h task FutureAbandoned timeout_response s) !! h
                = Some (Replied timeout_response)).
  { simpl. apply list_lookup_insert_eq. by eapply lookup_lt_Some. }
  assert (Ht' : tasks (reply h h task FutureAbandoned timeout_response s) !! h
                = Some (with_promise task
                          {| shared_value := None; reader := FutureAbandoned |})).
  { simpl. rewrite list_lookup_insert_eq by (by eapply lookup_lt_Some). by rewrite Hv. }
  exists h, ws, task. repeat (split; [done|]). split.
  { intros t' Hne. simpl. by rewrite list_lookup_insert_ne. }
  intros u w wk Hsteps Hw Hat.
  pose proof (invariant_steps _ _ I' Hsteps) as Iu.
  destruct (steps_task _ _ _ _ Hsteps Ht') as (task_u & Htu & He).
  destruct (steps_abandoned _ _ _ _ _ I' Hsteps Ht' eq_refl Hh') as (task_u' & Htu' & Hrd).
  simplify_eq.
  destruct (worker_finish_writes u w wk h task_u Iu Hw Hat Htu)
    as (_ & u' & Hfin & Hwr & Hwk & _ & Hhu & _).
  exists task_u, u'. split; [done|]. split; [apply He|]. split; [done|].
  split; [done|]. split; [by rewrite Hwr, Hrd|]. split; [eauto|].
  rewrite Hhu. by eapply steps_replied.
Qed.

Lemma duration_cast_ms_floor d :
  0 ≤ d →
  0 ≤ duration_cast_ms d ∧
  nanos_per_milli * duration_cast_ms d ≤ d < nanos_per_milli * (duration_cast_ms d + 1).
Proof.
  intros Hd. unfold duration_cast_ms, nanos_per_milli.
  rewrite Z.quot_div_nonneg by lia.
  pose proof (Z.div_pos d 1000000 Hd ltac:(lia)).
  pose proof (Z.mul_div_le d 1000000 ltac:(lia)).
  pose proof (Z.mul_succ_div_gt d 1000000 ltac:(lia)). lia.
Qed.

(** C5.  When the handler's wait ends with the channel fulfilled, in a
    reachable state, the handler replies with [ok = true], with the text
    stored in the channel, and with [processing_time_ms] the whole
    milliseconds between the task's [task_start_time] and the clock reading
    the handler takes at that moment; this number is never negative. *)
Theorem completed_reply s h s' :
  reachable s →
  ProcessImage_ready h s = Some s' →
  ∃ t ws task result_text r,
    handlers s !! h = Some (InWaitFor t ws) ∧ tasks s !! t = Some task ∧
    shared_value (text_promise task) = Some result_text ∧
    handlers s' !! h = Some (Replied r) ∧
    ok r = true ∧ text r = result_text ∧
    processing_time_ms r = Z.quot (steady_clock s - task_start_time task) 1000000 ∧
    0 ≤ processing_time_ms r ∧
    1000000 * processing_time_ms r ≤ steady_clock s - task_start_time task
      < 1000000 * (processing_time_ms r + 1).
Proof.
  intros Hr Hrd. pose proof (invariant_reachable s Hr) as I.
  apply ProcessImage_ready_inv in Hrd as (t & ws & task & txt & Hh & Ht & Hv & ->).
  pose proof (inv_clock s I _ _ Ht) as Hclock.
  destruct (duration_cast_ms_floor (steady_clock s - task_start_time task))
    as [Hpos Hfloor]; [lia|].
  exists t, ws, task, txt. eexists. split; [done|]. split; [done|]. split; [done|].
  split. { simpl. apply list_lookup_insert_eq. by eapply lookup_lt_Some. }
  simpl. done.
Qed.

(** C4 as the code has it.  Whatever the context and the request, the handler
    enters its wait with the same state (the context is not read), and from
    then on its wait ends by timeout exactly when no result is stored and 120
    seconds have passed since the wait began, and ends with the result exactly
    when one is stored: the wait is bounded by a fixed 120 seconds.  The
    deadline a caller can choose is the one the client wrapper puts on its own
    call context: now plus [max_wait_seconds], 120 seconds when left out. *)
Theorem wait_bound_is_fixed (context : ServerContext) (request : ProcessImageRequest) s :
  ∃ s1, ProcessImage_submit context request s = Some s1 ∧
    handlers s1 !! (length (handlers s)) =
      Some (InWaitFor (length (tasks s)) (steady_clock s)) ∧
    (∀ context', ProcessImage_submit context' request s = Some s1) ∧
    (∀ u h t ws task,
       handlers u !! h = Some (InWaitFor t ws) → tasks u !! t = Some task →
       (is_Some (ProcessImage_timeout h u) ↔
        shared_value (text_promise task) = None ∧ seconds 120 ≤ steady_clock u - ws) ∧
       (is_Some (ProcessImage_ready h u) ↔ is_Some (shared_value (text_promise task)))) ∧
    (∀ now, deadline (client_context now None) = now + seconds 120) ∧
    (∀ now n, deadline (client_context now (Some n)) = now + seconds n).
Proof.
  eexists. split; [apply ProcessImage_submit_eq|]. split.
  { simpl. by apply list_lookup_middle. }
  split; [intros context'; apply ProcessImage_submit_eq|].
  split; [|done].
  intros u h t ws task Hh Ht.
  unfold ProcessImage_timeout, ProcessImage_ready, wait_bound. rewrite Hh, Ht.
  destruct (shared_value (text_promise task)) as [x|]; split.
  - split; [by intros [? ?]|by intros [? _]].
  - split; eauto.
  - destruct (Z.leb_spec (seconds 120) (steady_clock u - ws)).
    + split; [done|eauto].
    + split; [by intros [? ?]|intros [_ ?]; lia].
  - split; [by intros [? ?]|by intros [? ?]].
Qed.

(** ** The preprocessing pipeline *)


(** ** Failures inside a worker *)

Lemma delivered_then_ready s t task v u h ws :
  tasks s !! t = Some task → shared_value (text_promise task) = Some v →
  rtc step s u → handlers u !! h = Some (InWaitFor t ws) →
  ∃ u' r, ProcessImage_ready h u = Some u' ∧
    handlers u' !! h = Some (Replied r) ∧
    ok r = true ∧ text r = v ∧ message r = "".
Proof.
  intros Ht Hv Hsteps Hh.
  destruct (steps_task _ _ _ _ Hsteps Ht) as (task_u & Htu & He).
  destruct He as (_ & _ & _ & _ & Hkeep). specialize (Hkeep v Hv).
  unfold ProcessImage_ready. rewrite Hh, Htu, Hkeep.
  eexists. eexists. split; [done|]. simpl.
  split; [apply list_lookup_insert_eq; by eapply lookup_lt_Some|done].
Qed.

Lemma worker_take_front s w wk next rest :
  workers_ s !! w = Some wk → at_ wk = AtWait → pending_tasks_ s = next :: rest →
  ∃ s2, worker_take w s = Some s2 ∧ holds s2 w next ∧ pending_tasks_ s2 = rest.
Proof.
  intros Hw Hat Hp.
  unfold worker_take, wait_predicate, exit_condition, queue_empty, set_worker.
  rewrite Hw, Hat, Hp. simpl. rewrite orb_true_r, andb_false_r.
  eexists. split; [done|]. split; [|done]. eexists. simpl.
  rewrite list_lookup_insert_eq by (by eapply lookup_lt_Some). done.
Qed.

(** C7.  Let a worker hold, in a reachable state, a task whose bytes do not
    decode ([pixReadMem] returns no image).  Then no further call is made, the
    engine is untouched and the extracted text is empty; the worker stores
    the empty text in the task's promise and is back at the wait; a handler
    waiting for that task then replies [ok = true] with empty text and no
    message.  A task whose recognition yields empty text gives the very
    same text, hence the very same reply for the same clock readings. *)
Theorem decode_failure_is_silent s w wk t task :
  reachable s →
  workers_ s !! w = Some wk → at_ wk = Holding t → tasks s !! t = Some task →
  pixReadMem (image_data task) = Normal None →
  extract_text task (ocr_engine wk)
    = (ocr_engine wk, [CallPixReadMem (image_data task)], "") ∧
  (∃ s1, worker_finish w s = Some s1 ∧
     tasks s1 !! t =
       Some (with_promise task
               {| shared_value := Some ""; reader := reader (text_promise task) |}) ∧
     workers_ s1 !! w = Some {| ocr_engine := ocr_engine wk; at_ := AtWait |} ∧
     ∀ u h ws, rtc step s1 u → handlers u !! h = Some (InWaitFor t ws) →
       ∃ u' r, ProcessImage_ready h u = Some u' ∧
         handlers u' !! h = Some (Replied r) ∧
         ok r = true ∧ text r = "" ∧ message r = "") ∧
  ∀ (blank : OcrTask) (e : TessBaseAPI),
    snd (recognize blank e) = Normal "" →
    snd (extract_text blank e) = snd (extract_text task (ocr_engine wk)) ∧
    ∀ now start start',
      completed_response (snd (extract_text blank e)) now start
      = completed_response (snd (extract_text task (ocr_engine wk))) now start
      ∧ ok (completed_response (snd (extract_text blank e)) now start)
        = ok (completed_response (snd (extract_text task (ocr_engine wk))) now start')
      ∧ text (completed_response (snd (extract_text blank e)) now start)
        = text (completed_response (snd (extract_text task (ocr_engine wk))) now start')
      ∧ message (completed_response (snd (extract_text blank e)) now start)
        = message (completed_response (snd (extract_text task (ocr_engine wk))) now start').
Proof.
  intros Hr Hw Hat Ht Hread. pose proof (invariant_reachable s Hr) as I.
  assert (Hx : extract_text task (ocr_engine wk)
               = (ocr_engine wk, [CallPixReadMem (image_data task)], "")).
  { unfold extract_text, recognize, bind, lept, ret. by rewrite Hread. }
  split; [done|]. split.
  - destruct (worker_finish_writes s w wk t task I Hw Hat Ht)
      as (_ & s1 & Hfin & Hwr & Hwk & _).
    rewrite Hx in Hwr, Hwk. simpl in Hwr, Hwk.
    exists s1. split; [done|]. split; [done|]. split; [done|].
    intros u h ws Hsteps Hh. by eapply delivered_then_ready.
  - intros blank e Hblank.
    assert (Hb : snd (extract_text blank e) = "").
    { unfold extract_text. destruct (recognize blank e) as [[e' tr] r].
      simpl in Hblank. by rewrite Hblank. }
    rewrite Hb, Hx. done.
Qed.

(** C8.  Let a worker hold, in a reachable state, a task for which a call
    inside the [try] block raises: a [std::exception] with message [what], or
    anything else.  Then the rest of the loop body still completes: the
    promise of the task receives "ERROR: " followed by [what], or
    "ERROR: unknown exception"; the worker is back at the wait, it has not
    returned; the queue is as it was, and if it is not empty the same worker
    removes its front task next.  A handler waiting for the bad task replies
    [ok = true] with the marker as its text. *)
Theorem worker_survives_bad_task s w wk t task marker :
  reachable s →
  workers_ s !! w = Some wk → at_ wk = Holding t → tasks s !! t = Some task →
  (∃ what, snd (recognize task (ocr_engine wk)) = StdException what ∧
           marker = String.append "ERROR: " what) ∨
  (snd (recognize task (ocr_engine wk)) = UnknownException ∧
   marker = "ERROR: unknown exception") →
  ∃ s1, worker_finish w s = Some s1 ∧
    tasks s1 !! t =
      Some (with_promise task
              {| shared_value := Some marker; reader := reader (text_promise task) |}) ∧
    (∃ wk', workers_ s1 !! w = Some wk' ∧ at_ wk' = AtWait) ∧
    pending_tasks_ s1 = pending_tasks_ s ∧
    shutdown_requested_ s1 = shutdown_requested_ s ∧
    (∀ next rest, pending_tasks_ s1 = next :: rest →
       ∃ s2, worker_take w s1 = Some s2 ∧ holds s2 w next ∧ pending_tasks_ s2 = rest) ∧
    (∀ u h ws, rtc step s1 u → handlers u !! h = Some (InWaitFor t ws) →
       ∃ u' r, ProcessImage_ready h u = Some u' ∧
         handlers u' !! h = Some (Replied r) ∧ ok r = true ∧ text r = marker).
Proof.
  intros Hr Hw Hat Ht Hraise. pose proof (invariant_reachable s Hr) as I.
  assert (Hx : snd (extract_text task (ocr_engine wk)) = marker).
  { unfold extract_text. destruct (recognize task (ocr_engine wk)) as [[e tr] r].
    simpl in Hraise. by destruct Hraise as [(what & -> & ->)|[-> ->]]. }
  destruct (worker_finish_writes s w wk t task I Hw Hat Ht)
    as (_ & s1 & Hfin & Hwr & Hwk & Hp & _ & Hsd & _).
  rewrite Hx in Hwr.
  exists s1. split; [done|]. split; [done|]. split; [eauto|].
  split; [done|]. split; [done|]. split.
  - intros next rest Hnext. by eapply worker_take_front.
  - intros u h ws Hsteps Hh.
    destruct (delivered_then_ready s1 t _ marker u h ws Hwr eq_refl Hsteps Hh)
      as (u' & r & ? & ? & ? & ? & _).
    by exists u', r.
Qed.

(** ** The language hint *)

Lemma hide_language_reply h t task r response s :
  hide_language (reply h t task r response s)
  = reply h t (with_language task "") r response (hide_language s).
Proof. unfold hide_language, reply. simpl. by rewrite list_fmap_insert. Qed.

(** every step commutes with hiding the language codes *)
Lemma perform_hide_language a s :
  perform (hide_action_language a) (hide_language s) = hide_language <$> perform a s.
Proof.
  destruct a as [context request|w|w|h|h| |d]; simpl.
  - rewrite !ProcessImage_submit_eq. unfold hide_language. simpl.
    by rewrite fmap_app, length_fmap.
  - unfold worker_take, wait_predicate, exit_condition, queue_empty, set_worker. simpl.
    destruct (workers_ s !! w) as [wk|]; [|done].
    destruct (at_ wk); try done.
    destruct (shutdown_requested_ s), (pending_tasks_ s); done.
  - unfold worker_finish, set_worker. simpl.
    destruct (workers_ s !! w) as [wk|]; [|done].
    destruct (at_ wk) as [|t|]; try done.
    rewrite list_lookup_fmap. destruct (tasks s !! t) as [task|]; [|done]. simpl.
    change (extract_text (with_language task "") (ocr_engine wk))
      with (extract_text task (ocr_engine wk)).
    destruct (extract_text task (ocr_engine wk)) as [[e tr] txt]. simpl.
    unfold hide_language. simpl. by rewrite list_fmap_insert.
  - unfold ProcessImage_ready. simpl.
    destruct (handlers s !! h) as [[t ws|]|]; try done.
    rewrite list_lookup_fmap. destruct (tasks s !! t) as [task|]; [|done]. simpl.
    destruct (shared_value (text_promise task)); [|done]. simpl.
    by rewrite hide_language_reply.
  - unfold ProcessImage_timeout. simpl.
    destruct (handlers s !! h) as [[t ws|]|]; try done.
    rewrite list_lookup_fmap. destruct (tasks s !! t) as [task|]; [|done]. simpl.
    destruct (shared_value (text_promise task)); [done|].
    destruct (wait_bound <=? steady_clock s - ws); [|done]. simpl.
    by rewrite hide_language_reply.
  - unfold stopProcessing. simpl. by destruct (shutdown_requested_ s).
  - unfold tick. by destruct (0 <? d).
Qed.

Lemma run_hide_language sched s :
  run (hide_action_language <$> sched) (hide_language s) = hide_language <$> run sched s.
Proof.
  revert s. induction sched as [|a rest IH]; intros s; simpl; [done|].
  rewrite perform_hide_language. destruct (perform a s) as [s1|]; simpl; [|done].
  apply IH.
Qed.

(** C10.  Take two schedules of the server that are the same once the [lang]
    field of every request is blanked (the same requests, worker and handler
    steps, in the same order; only language hints differ), run from the same
    start.  Then both runs are enabled alike, and they end in states with the
    same replies, the same promise contents for every task, the same workers
    and engines, the same queue: the stored language codes are the only
    difference.  For a single task, changing its language code changes neither
    the calls made, nor the engine, nor the extracted text.  Every worker's
    engine is the one initialised with "eng", and the client wrapper sends
    "eng" whatever it is asked to extract. *)
Theorem language_hint_has_no_effect (sched1 sched2 : list action)
    (now : Z) (worker_count : nat) :
  hide_action_language <$> sched1 = hide_action_language <$> sched2 →
  hide_language <$> run sched1 (TaskProcessor now worker_count)
    = hide_language <$> run sched2 (TaskProcessor now worker_count) ∧
  (∀ s1, run sched1 (TaskProcessor now worker_count) = Some s1 →
     ∃ s2, run sched2 (TaskProcessor now worker_count) = Some s2 ∧
       handlers s1 = handlers s2 ∧
       text_promise <$> tasks s1 = text_promise <$> tasks s2 ∧
       image_data <$> tasks s1 = image_data <$> tasks s2 ∧
       workers_ s1 = workers_ s2 ∧ pending_tasks_ s1 = pending_tasks_ s2 ∧
       queue_log s1 = queue_log s2) ∧
  (∀ task code e, extract_text (with_language task code) e = extract_text task e) ∧
  (∀ w wk, workers_ (TaskProcessor now worker_count) !! w = Some wk →
     ocr_engine wk = fst (Init TessBaseAPI_new "/opt/homebrew/share/tessdata" "eng")) ∧
  (∀ session job path data, lang (extraction_request session job path data) = "eng").
Proof.
  intros Hsame.
  assert (Hruns : hide_language <$> run sched1 (TaskProcessor now worker_count)
                  = hide_language <$> run sched2 (TaskProcessor now worker_count)).
  { rewrite <- !run_hide_language. by rewrite Hsame. }
  split; [done|]. split; [|split; [done|split; [|done]]].
  - intros s1 H1. rewrite H1 in Hruns.
    destruct (run sched2 (TaskProcessor now worker_count)) as [s2|]; [|done].
    exists s2. split; [done|]. injection Hruns as Hc Ht Hp Hsd Hw Hh Hl.
    repeat split; try done.
    + apply (f_equal (fmap text_promise)) in Ht.
      by rewrite <- !list_fmap_compose in Ht.
    + apply (f_equal (fmap image_data)) in Ht.
      by rewrite <- !list_fmap_compose in Ht.
  - intros w wk Hl. simpl in Hl. by apply lookup_replicate in Hl as [-> _].
Qed.

(** * Further properties of the server *)

Lemma step_clock s s' : step s s' → steady_clock s ≤ steady_clock s'.
Proof. intros Hstep. step_cases Hstep; simpl; lia. Qed.

(** ** The pool *)

Lemma step_pool s s' :
  step s s' →
  length (workers_ s') = length (workers_ s) ∧
  ∀ w wk, workers_ s !! w = Some wk → at_ wk = Returned → workers_ s' !! w = Some wk.
Proof.
  intros Hstep. step_cases Hstep; simpl; rewrite ?length_insert; split; try done;
    intros w' wk' Hl Hr; (rewrite list_lookup_insert_ne; [done|]); intros ->; congruence.
Qed.

(** X1.  No step of the server adds or removes a worker thread, and a worker
    that has returned from its loop stays returned with its engine as it
    was: a pool started with [worker_count] threads has that many entries in
    every reachable state, and it cannot be revived after shutdown. *)
Theorem pool_is_fixed s s' :
  rtc step s s' →
  length (workers_ s') = length (workers_ s) ∧
  (∀ w wk, workers_ s !! w = Some wk → at_ wk = Returned → workers_ s' !! w = Some wk) ∧
  (∀ now worker_count, s = TaskProcessor now worker_count →
     length (workers_ s') = worker_count).
Proof.
  intros Hsteps.
  assert (H : length (workers_ s') = length (workers_ s) ∧
    ∀ w wk, workers_ s !! w = Some wk → at_ wk = Returned → workers_ s' !! w = Some wk).
  { induction Hsteps as [|s1 s2 s3 H12 _ [IHl IHr]]; [done|].
    destruct (step_pool _ _ H12) as [Hl Hr]. split; [congruence|].
    intros w wk Hw Hat. apply IHr; [by apply Hr|done]. }
  destruct H as [Hl Hr]. split; [done|]. split; [done|].
  intros now n ->. rewrite Hl. simpl. apply length_replicate.
Qed.

(** X2.  A worker's record changes only by that worker's own steps, and its
    engine only by its own [Finish]: no handler, no other worker, no shutdown
    request and no passing of time touches the engine a worker owns. *)
Theorem engine_is_private (a : action) s s' w wk :
  perform a s = Some s' →
  workers_ s !! w = Some wk →
  ∃ wk', workers_ s' !! w = Some wk' ∧
    (a ≠ Finish w → ocr_engine wk' = ocr_engine wk) ∧
    (a ≠ Take w → a ≠ Finish w → wk' = wk).
Proof.
  intros Ha Hw. assert (Hstep : step s s') by (by exists a).
  destruct a as [context request|w0|w0|h|h| |d]; simpl in Ha.
  - rewrite ProcessImage_submit_eq in Ha. injection Ha as <-. by exists wk.
  - apply worker_take_inv in Ha
      as (wk0 & Hw0 & Hat & [(_ & _ & ->)|(t & rest & _ & ->)]); simpl;
      (destruct (decide (w0 = w)) as [->|Hne];
       [rewrite list_lookup_insert_eq by (by eapply lookup_lt_Some);
        eexists; split; [done|]; simplify_eq; by split
       |rewrite list_lookup_insert_ne by done; by exists wk]).
  - apply worker_finish_inv in Ha as (wk0 & t & task & Hw0 & Hat & Ht & ->); simpl.
    destruct (decide (w0 = w)) as [->|Hne].
    + rewrite list_lookup_insert_eq by (by eapply lookup_lt_Some).
      eexists. split; [done|]. by split.
    + rewrite list_lookup_insert_ne by done. by exists wk.
  - apply ProcessImage_ready_inv in Ha as (t & ws & task & txt & _ & _ & _ & ->).
    by exists wk.
  - apply ProcessImage_timeout_inv in Ha as (t & ws & task & _ & _ & _ & _ & ->).
    by exists wk.
  - injection Ha as <-. unfold stopProcessing.
    destruct (shutdown_requested_ s); by exists wk.
  - apply tick_inv in Ha as [_ ->]. by exists wk.
Qed.

(** ** Requests that arrive when no worker is left *)

Lemma joined_all_returned s : joined s = true ↔ all_returned s.
Proof. apply joined_spec. Qed.

(** with every worker returned, a step only appends to the queue and writes
    no promise *)
Lemma step_without_workers s s' :
  step s s' → all_returned s →
  all_returned s' ∧
  pending_tasks_ s `prefix_of` pending_tasks_ s' ∧
  ∀ t, unwritten s t → unwritten s' t.
Proof.
  intros Hstep Hall. step_cases Hstep; simpl;
    try (pose proof (Hall _ _ Hw); congruence);
    (split; [done|]); (split; [by try apply prefix_app_r|]);
    intros t' Hun; try done.
  - destruct Hun as (task & Hl & Hv). exists task.
    split; [by apply lookup_app_l_Some|done].
  - by apply unwritten_reply.
  - by apply unwritten_reply.
Qed.

(** X3.  [submitTask] accepts a task whatever the state of the pool.  A request
    that arrives when every worker has returned (after shutdown, or in a pool
    started with no workers) is queued and then stays queued for ever: its
    promise is never written, the queue is never consumed, and the only reply
    its handler can give is the timeout reply. *)
Theorem request_after_workers_left s context request s1 s' :
  reachable s →
  joined s = true →
  ProcessImage_submit context request s = Some s1 →
  rtc step s1 s' →
  joined s' = true ∧
  length (tasks s) ∈ pending_tasks_ s' ∧
  pending_tasks_ s1 `prefix_of` pending_tasks_ s' ∧
  unwritten s' (length (tasks s)) ∧
  (handlers s' !! (length (tasks s))
     = Some (InWaitFor (length (tasks s)) (steady_clock s)) ∨
   handlers s' !! (length (tasks s)) = Some (Replied timeout_response)).
Proof.
  intros Hr Hj Hsub Hsteps. pose proof (invariant_reachable s Hr) as I.
  apply joined_all_returned in Hj.
  rewrite ProcessImage_submit_eq in Hsub. injection Hsub as <-.
  set (t := length (tasks s)) in *.
  match type of Hsteps with rtc step ?x _ => set (s1 := x) in * end.
  assert (Hinv : all_returned s' ∧
            pending_tasks_ s1 `prefix_of` pending_tasks_ s' ∧
            unwritten s' t ∧
            (handlers s' !! t = Some (InWaitFor t (steady_clock s)) ∨
             handlers s' !! t = Some (Replied timeout_response))).
  { revert s' Hsteps. apply rtc_ind_r.
    - split; [done|]. split; [done|]. split.
      + eexists. split; [apply list_lookup_middle; done|done].
      + left. simpl. apply list_lookup_middle. by rewrite (inv_calls s I).
    - intros s2 s3 H12 H23 (Hall & Hpre & Hun & Hh).
      destruct (step_without_workers _ _ H23 Hall) as (Hall3 & Hpre3 & Hun3).
      split; [done|]. split; [by etrans|]. split; [by apply Hun3|].
      clear Hall3 Hpre3 Hun3. destruct Hun as (task & Hl & Hv).
      step_cases H23; simpl; try done;
        try (by destruct (shutdown_requested_ s2)).
      + destruct Hh as [Hh|Hh]; [left|right]; by apply lookup_app_l_Some.
      + destruct (decide (h = t)) as [->|Hne].
        * destruct Hh as [Hh|Hh]; simplify_eq.
        * by rewrite list_lookup_insert_ne.
      + destruct (decide (h = t)) as [->|Hne].
        * right. apply list_lookup_insert_eq. by eapply lookup_lt_Some.
        * by rewrite list_lookup_insert_ne. }
  destruct Hinv as (Hall & Hpre & Hun & Hh).
  split; [by apply joined_all_returned|]. split; [|done].
  eapply elem_of_prefix; [|done]. subst s1. simpl.
  apply elem_of_app. right. by apply list_elem_of_singleton.
Qed.

(** ** What a reply can be *)

(** where an entry of [handlers] found after a step comes from *)
Lemma step_handlers s s' h x :
  step s s' → handlers s' !! h = Some x →
  handlers s !! h = Some x ∨
  (h = length (handlers s) ∧ x = InWaitFor (length (tasks s)) (steady_clock s) ∧
   ∃ task, tasks s' !! (length (tasks s)) = Some task ∧
           task_start_time task = steady_clock s) ∨
  (∃ t ws task v, handlers s !! h = Some (InWaitFor t ws) ∧ tasks s !! t = Some task ∧
     shared_value (text_promise task) = Some v ∧
     x = Replied (completed_response v (steady_clock s) (task_start_time task))) ∨
  (∃ t ws task, handlers s !! h = Some (InWaitFor t ws) ∧ tasks s !! t = Some task ∧
     wait_bound ≤ steady_clock s - ws ∧ x = Replied timeout_response).
Proof.
  intros Hstep Hl. step_cases Hstep; simpl in Hl; eauto;
    try (by destruct (shutdown_requested_ s); eauto).
  - apply lookup_app_Some in Hl as [Hl|[Hge Hl]]; [by left|].
    apply list_lookup_singleton_Some in Hl as [Hz <-].
    right. left. split; [lia|]. split; [done|]. simpl.
    eexists. split; [by apply list_lookup_middle|done].
  - apply list_lookup_insert_Some in Hl as [(-> & <- & _)|[Hne Hl]]; [|by left].
    right. right. left. by exists t, ws, task, txt.
  - apply list_lookup_insert_Some in Hl as [(-> & <- & _)|[Hne Hl]]; [|by left].
    right. right. right. by exists t, ws, task.
Qed.

Lemma handlers_sound_init now worker_count :
  handlers_sound (TaskProcessor now worker_count).
Proof. split; simpl; intros h; intros; by rewrite lookup_nil in *. Qed.

Lemma handlers_sound_step s s' :
  invariant s → handlers_sound s → step s s' → handlers_sound s'.
Proof.
  intros I HS Hstep. pose proof (step_clock _ _ Hstep) as Hclock.
  assert (Hwait : ∀ h t ws, handlers s !! h = Some (InWaitFor t ws) →
            ∃ task, tasks s' !! h = Some task ∧ t = h ∧ ws = task_start_time task).
  { intros h t ws Hl. destruct (waiting_sound s HS _ _ _ Hl) as (task & Ht & -> & ->).
    destruct (step_task _ _ _ _ Hstep Ht) as (task' & Ht' & He).
    exists task'. split; [done|]. split; [done|]. symmetry. apply He. }
  split.
  - intros h t ws Hl.
    destruct (step_handlers _ _ _ _ Hstep Hl)
      as [Hold|[(-> & [= -> ->] & task & Ht & Hst)|[(?&?&?&?&_&_&_&?)|(?&?&?&_&_&_&?)]]];
      try done.
    + by apply Hwait.
    + exists task. rewrite (inv_calls s I). by split.
  - intros h r Hl.
    destruct (step_handlers _ _ _ _ Hstep Hl)
      as [Hold|[(_ & ? & _)|[(t & ws & task & v & Hh & Ht & Hv & [= ->])
                            |(t & ws & task & Hh & Ht & Hb & [= ->])]]];
      try done.
    + destruct (replied_sound s HS _ _ Hold) as (task & Ht & Hr).
      destruct (step_task _ _ _ _ Hstep Ht) as (task' & Ht' & He).
      destruct He as (_ & _ & _ & Hst & Hkeep).
      exists task'. split; [done|]. rewrite Hst.
      destruct Hr as [[-> Hb]|(v & c & Hv & Hc & ->)].
      * left. split; [done|lia].
      * right. exists v, c. split; [by apply Hkeep|]. split; [lia|done].
    + destruct (Hwait _ _ _ Hh) as (task' & Ht' & -> & Hws).
      destruct (step_task _ _ _ _ Hstep Ht) as (task'' & Ht'' & He). simplify_eq.
      destruct He as (_ & _ & _ & Hst & Hkeep).
      exists task'. split; [done|]. right. exists v, (steady_clock s).
      split; [by apply Hkeep|]. rewrite Hst.
      pose proof (inv_clock s I _ _ Ht). split; [lia|done].
    + destruct (Hwait _ _ _ Hh) as (task' & Ht' & -> & ->).
      exists task'. split; [done|]. left. split; [done|lia].
Qed.

Lemma handlers_sound_reachable s : reachable s → handlers_sound s.
Proof.
  intros (now & n & Hsteps).
  assert (H : invariant s ∧ handlers_sound s); [|by destruct H].
  revert s Hsteps. apply rtc_ind_r.
  - split; [apply invariant_init|apply handlers_sound_init].
  - intros s2 s3 _ H23 [I HS].
    split; [by eapply invariant_step|by eapply handlers_sound_step].
Qed.

(** X4.  In every reachable state a reply is one of two things: the timeout
    reply ([ok = false], "Image processing timeout", no text, time 0), or a
    reply with [ok = true], no message, a processing time that is not
    negative, and as its text the value stored in the promise of the request's
    own task.  The handler never answers [ok = false] for any other reason:
    whatever a worker stored, error markers included, goes out as [ok = true]. *)
Theorem reply_is_timeout_or_text s h r :
  reachable s →
  handlers s !! h = Some (Replied r) →
  (r = timeout_response ∧ ok r = false ∧ message r = "Image processing timeout") ∨
  (ok r = true ∧ message r = "" ∧ 0 ≤ processing_time_ms r ∧
   ∃ task, tasks s !! h = Some task ∧
           shared_value (text_promise task) = Some (text r)).
Proof.
  intros Hr Hl.
  destruct (replied_sound s (handlers_sound_reachable s Hr) _ _ Hl)
    as (task & Ht & [[-> _]|(v & c & Hv & Hc & ->)]).
  - by left.
  - right. split; [done|]. split; [done|]. split.
    + simpl. apply duration_cast_ms_floor. lia.
    + by exists task.
Qed.

(** X5.  A timeout is never reported early and a processing time is never
    overstated: in every reachable state, a request answered with [ok = false]
    had its task created at least 120 seconds before now, and the
    [processing_time_ms] of a request answered with [ok = true] is at most the
    whole milliseconds elapsed since its task was created. *)
Theorem reply_times_are_sound s h r :
  reachable s →
  handlers s !! h = Some (Replied r) →
  ∃ task, tasks s !! h = Some task ∧
    (ok r = false → seconds 120 ≤ steady_clock s - task_start_time task) ∧
    (ok r = true →
     processing_time_ms r ≤ duration_cast_ms (steady_clock s - task_start_time task)).
Proof.
  intros Hr Hl.
  destruct (replied_sound s (handlers_sound_reachable s Hr) _ _ Hl)
    as (task & Ht & [[-> Hb]|(v & c & Hv & Hc & ->)]).
  - exists task. split; [done|]. by split.
  - exists task. split; [done|]. split; [done|]. intros _. simpl.
    unfold duration_cast_ms, nanos_per_milli.
    rewrite !Z.quot_div_nonneg by lia. apply Z.div_le_mono; lia.
Qed.

(** ** Promises and the queue *)

Lemma dequeued_submitted s t :
  invariant s → t ∈ dequeued (queue_log s) → (t < length (tasks s))%nat ∧ t ∉ pending_tasks_ s.
Proof.
  intros I Hin. pose proof (NoDup_seq 0 (length (tasks s))) as Hnd.
  rewrite <- (inv_alloc s I), (inv_log s I) in Hnd.
  apply NoDup_app in Hnd as (_ & Hdisj & _). split; [|by apply Hdisj].
  assert (Hs : t ∈ submitted (queue_log s)).
  { rewrite (inv_log s I). apply elem_of_app. by left. }
  rewrite (inv_alloc s I) in Hs. apply elem_of_seq in Hs. lia.
Qed.

Lemma promises_follow_queue_init now worker_count :
  promises_follow_queue (TaskProcessor now worker_count).
Proof.
  split; simpl.
  - intros w t (wk & Hl & Hat). apply lookup_replicate in Hl as [-> _]. done.
  - intros t task Hl. by rewrite lookup_nil in Hl.
Qed.

Lemma promises_follow_queue_step s s' :
  invariant s → promises_follow_queue s → step s s' → promises_follow_queue s'.
Proof.
  intros I P Hstep. step_cases Hstep.
  - (* a request *)
    split; simpl.
    + intros w t Hh. rewrite dequeued_app, app_nil_r. by eapply held_dequeued.
    + intros t task Hl. rewrite dequeued_app, app_nil_r.
      apply lookup_app_Some in Hl as [Hl|[Hge Hl]]; [by apply (written_finished s P)|].
      apply list_lookup_singleton_Some in Hl as [Hz <-]. simpl. split.
      * by intros [? ?].
      * intros [Hin _]. apply (dequeued_submitted s _ I) in Hin. lia.
  - (* a worker returns *)
    pose proof (holds_after_set s w wk (ocr_engine wk) Returned _ Hw eq_refl) as Hh.
    split; simpl.
    + intros w' t H1. apply Hh in H1 as [[_ ?]|[_ H1]]; [done|].
      by eapply held_dequeued.
    + intros t task Hl. rewrite (written_finished s P t task Hl).
      split; intros [Hin Hno]; (split; [done|]); intros w' H1; apply (Hno w').
      * apply Hh in H1 as [[_ ?]|[_ H1]]; done.
      * destruct H1 as (wk' & Hl' & Hat'). apply Hh. right. split; [|by exists wk'].
        intros ->. congruence.
  - (* a worker dequeues t *)
    pose proof (holds_after_set s w wk (ocr_engine wk) (Holding t) _ Hw eq_refl) as Hh.
    assert (Hpend : t ∈ pending_tasks_ s) by (rewrite Hpe; by apply elem_of_cons; left).
    split; simpl.
    + intros w' t' H1. rewrite dequeued_app. apply elem_of_app.
      apply Hh in H1 as [[_ [= <-]]|[_ H1]].
      * right. by apply list_elem_of_singleton.
      * left. by eapply held_dequeued.
    + intros t' task Hl. rewrite dequeued_app. simpl.
      destruct (decide (t' = t)) as [->|Hne].
      * split.
        -- intros Hsome. destruct (inv_pending_unwritten s I _ Hpend) as (task' & Hl' & Hv).
           simplify_eq. rewrite Hv in Hsome. by destruct Hsome.
        -- intros [_ Hno]. exfalso. apply (Hno w). apply Hh. by left.
      * rewrite (written_finished s P t' task Hl). split.
        -- intros [Hin Hno]. split; [apply elem_of_app; by left|].
           intros w' H1. apply Hh in H1 as [[_ [= ?]]|[_ H1]]; [done|]. by apply (Hno w').
        -- intros [Hin Hno]. split.
           ++ apply elem_of_app in Hin as [Hin|Hin]; [done|].
              by apply list_elem_of_singleton in Hin.
           ++ intros w' (wk' & Hl' & Hat'). apply (Hno w'). apply Hh. right.
              split; [|by exists wk']. intros ->. congruence.
  - (* a worker finishes t *)
    pose proof (holds_after_set s w wk
      (fst (fst (extract_text task (ocr_engine wk)))) AtWait _ Hw eq_refl) as Hh.
    assert (Hwt : holds s w t) by (by exists wk).
    split; simpl.
    + intros w' t' H1. apply Hh in H1 as [[_ ?]|[_ H1]]; [done|].
      by eapply held_dequeued.
    + intros t' task' Hl.
      apply list_lookup_insert_Some in Hl as [(-> & <- & _)|[Hne Hl]].
      * simpl. destruct (inv_held_unwritten s I _ _ Hwt) as (task' & Hl' & Hv).
        simplify_eq. rewrite (deliver_unwritten _ _ Hv). simpl. split; [|eauto].
        intros _. split; [by eapply held_dequeued|].
        intros w' H1. apply Hh in H1 as [[_ ?]|[Hne H1]]; [done|].
        apply Hne. by eapply (inv_one_holder s I).
      * rewrite (written_finished s P t' task' Hl).
        split; intros [Hin Hno]; (split; [done|]); intros w' H1; apply (Hno w').
        -- apply Hh in H1 as [[_ ?]|[_ H1]]; done.
        -- destruct H1 as (wk' & Hl' & Hat'). apply Hh. right. split; [|by exists wk'].
           intros ->. apply Hne. congruence.
  - (* a handler replies with the result *)
    split; simpl; [apply P|]. intros t' task' Hl.
    apply list_lookup_insert_Some in Hl as [(-> & <- & _)|[Hne Hl]];
      [simpl|]; by apply (written_finished s P).
  - (* a handler gives up *)
    split; simpl; [apply P|]. intros t' task' Hl.
    apply list_lookup_insert_Some in Hl as [(-> & <- & _)|[Hne Hl]];
      [simpl|]; by apply (written_finished s P).
  - done.
  - split; simpl; apply P.
  - split; simpl; apply P.
Qed.

Lemma promises_follow_queue_reachable s : reachable s → promises_follow_queue s.
Proof.
  intros (now & n & Hsteps).
  assert (H : invariant s ∧ promises_follow_queue s); [|by destruct H].
  revert s Hsteps. apply rtc_ind_r.
  - split; [apply invariant_init|apply promises_follow_queue_init].
  - intros s2 s3 _ H23 [I P].
    split; [by eapply invariant_step|by eapply promises_follow_queue_step].
Qed.

(** X6.  In every reachable state the promise of a task holds a value exactly
    when a worker has removed the task from the queue and is no longer holding
    it: tasks still queued or in the hands of a worker have empty promises,
    and every task a worker is done with has its promise fulfilled.  So a
    worker never leaves its task without an answer, and no task is answered
    without having been processed. *)
Theorem promise_written_iff_finished s t task :
  reachable s →
  tasks s !! t = Some task →
  (is_Some (shared_value (text_promise task)) ↔
   t ∈ dequeued (queue_log s) ∧ ∀ w, ¬ holds s w t) ∧
  (t ∈ pending_tasks_ s → shared_value (text_promise task) = None) ∧
  (∀ w, holds s w t →
     shared_value (text_promise task) = None ∧ t ∈ dequeued (queue_log s)).
Proof.
  intros Hr Hl. pose proof (invariant_reachable s Hr) as I.
  pose proof (promises_follow_queue_reachable s Hr) as P.
  split; [by apply (written_finished s P)|]. split.
  - intros Hin. destruct (inv_pending_unwritten s I _ Hin) as (task' & Hl' & Hv).
    by simplify_eq.
  - intros w Hh. split; [|by eapply held_dequeued].
    destruct (inv_held_unwritten s I _ _ Hh) as (task' & Hl' & Hv). by simplify_eq.
Qed.

(** ** Progress *)

Lemma serve_queue (n : nat) : ∀ s w wk,
  reachable s → workers_ s !! w = Some wk → at_ wk = AtWait →
  length (pending_tasks_ s) = n →
  ∃ s', run (serve w n) s = Some s' ∧
    pending_tasks_ s' = [] ∧
    (∃ wk', workers_ s' !! w = Some wk' ∧ at_ wk' = AtWait) ∧
    dequeued (queue_log s') = (dequeued (queue_log s) ++ pending_tasks_ s)%list ∧
    (∀ t, t ∈ pending_tasks_ s →
       ∃ task, tasks s' !! t = Some task ∧ is_Some (shared_value (text_promise task))) ∧
    handlers s' = handlers s ∧ steady_clock s' = steady_clock s ∧
    shutdown_requested_ s' = shutdown_requested_ s.
Proof.
  induction n as [|n IH]; intros s w wk Hr Hw Hat Hlen.
  - apply nil_length_inv in Hlen. exists s. rewrite Hlen, app_nil_r.
    repeat split; eauto. intros t Hin. by apply elem_of_nil in Hin.
  - destruct (pending_tasks_ s) as [|t rest] eqn:Hp; [done|].
    injection Hlen as Hlen.
    destruct (worker_take_front s w wk t rest Hw Hat Hp) as (s2 & Htake & Hh2 & Hp2).
    assert (Hr2 : reachable s2) by (eapply reachable_step; [done|by exists (Take w)]).
    pose proof (invariant_reachable s2 Hr2) as I2.
    destruct (worker_take_inv _ _ _ Htake)
      as (wk0 & Hw0 & _ & [(_ & Hnil & _)|(t0 & rest0 & Hp0 & Hs2)]); [congruence|].
    assert (t0 = t) as -> by congruence.
    destruct (inv_held_unwritten s2 I2 w t Hh2) as (task & Ht2 & _).
    destruct Hh2 as (wk2 & Hw2 & Hat2).
    destruct (worker_finish_writes s2 w wk2 t task I2 Hw2 Hat2 Ht2)
      as (_ & s3 & Hfin & Hwr & Hw3 & Hp3 & Hh3 & Hsd3 & Hl3 & Hc3).
    assert (Hr3 : reachable s3) by (eapply reachable_step; [done|by exists (Finish w)]).
    destruct (IH s3 w _ Hr3 Hw3 eq_refl) as
      (s' & Hrun & Hpe & Hwk & Hdq & Hwritten & Hh' & Hc' & Hsd'); [congruence|].
    exists s'. split; [simpl; by rewrite Htake, Hfin|].
    split; [done|]. split; [done|].
    split; [|split; [|split; [|split]]].
    + rewrite Hdq, Hp3, Hp2, Hl3, Hs2. simpl. rewrite dequeued_app. simpl.
      by rewrite <- app_assoc.
    + intros t' Hin. apply elem_of_cons in Hin as [->|Hin].
      * destruct (steps_task _ _ _ _ (run_steps _ _ _ Hrun) Hwr) as (task' & Hl' & He).
        exists task'. split; [done|]. destruct He as (_ & _ & _ & _ & Hkeep).
        rewrite (Hkeep _ eq_refl). eauto.
      * apply Hwritten. by rewrite Hp3, Hp2.
    + rewrite Hh', Hh3, Hs2. done.
    + rewrite Hc', Hc3, Hs2. done.
    + rewrite Hsd', Hsd3, Hs2. done.
Qed.

(** X7.  One idle worker is enough to empty the queue: from any reachable
    state with a worker at its wait, letting that worker go through its loop
    body once per queued task is possible whatever the tasks contain (no step
    is ever refused), serves the tasks in queue order, leaves the queue empty
    and the worker back at its wait, and leaves every one of those tasks with
    its promise fulfilled.  No time needs to pass and no handler is touched. *)
Theorem one_worker_serves_queue s w wk :
  reachable s →
  workers_ s !! w = Some wk →
  at_ wk = AtWait →
  ∃ s', run (serve w (length (pending_tasks_ s))) s = Some s' ∧
    pending_tasks_ s' = [] ∧
    (∃ wk', workers_ s' !! w = Some wk' ∧ at_ wk' = AtWait) ∧
    dequeued (queue_log s') = (dequeued (queue_log s) ++ pending_tasks_ s)%list ∧
    (∀ t, t ∈ pending_tasks_ s →
       ∃ task, tasks s' !! t = Some task ∧ is_Some (shared_value (text_promise task))) ∧
    handlers s' = handlers s ∧ steady_clock s' = steady_clock s.
Proof.
  intros Hr Hw Hat.
  destruct (serve_queue (length (pending_tasks_ s)) s w wk Hr Hw Hat eq_refl)
    as (s' & Hrun & Hpe & Hwk & Hdq & Hwr & Hh & Hc & _).
  exists s'. by repeat (split; [done|]).
Qed.

(** ** The end of a handler's wait *)

(** X14.  A handler's wait always ends.  In every reachable state a handler
    inside [wait_for] has exactly the exits the code gives it: it can leave
    with the text as soon as the promise of its task holds a value, it cannot
    leave by timeout before 120 seconds have passed on the clock, and once
    they have passed one of the two exits is open, never both.  So no request
    stays unanswered because of the server once 120 seconds are over,
    whatever the workers do. *)
Theorem wait_always_ends s h t wait_start :
  reachable s →
  handlers s !! h = Some (InWaitFor t wait_start) →
  (∃ task, tasks s !! t = Some task ∧
     (is_Some (shared_value (text_promise task)) ↔ is_Some (ProcessImage_ready h s)) ∧
     (shared_value (text_promise task) = None ∧ wait_bound ≤ steady_clock s - wait_start
        ↔ is_Some (ProcessImage_timeout h s))) ∧
  (ProcessImage_ready h s = None ∨ ProcessImage_timeout h s = None) ∧
  (wait_bound ≤ steady_clock s - wait_start →
     is_Some (ProcessImage_ready h s) ∨ is_Some (ProcessImage_timeout h s)) ∧
  (∀ d, 0 < d → wait_bound ≤ steady_clock s + d - wait_start →
     ∃ s1, tick d s = Some s1 ∧
       (is_Some (ProcessImage_ready h s1) ∨ is_Some (ProcessImage_timeout h s1))).
Proof.
  intros Hr Hl.
  destruct (waiting_sound s (handlers_sound_reachable s Hr) _ _ _ Hl)
    as (task & Ht & -> & ->).
  assert (Hexits : ∀ clock,
    match shared_value (text_promise task) with
    | Some _ => True
    | None => wait_bound ≤ clock - task_start_time task ↔
              (wait_bound <=? clock - task_start_time task) = true
    end).
  { intros clock. destruct (shared_value (text_promise task)); [done|].
    symmetry. apply Z.leb_le. }
  split; [|split; [|split]].
  - exists task. split; [done|]. unfold ProcessImage_ready, ProcessImage_timeout.
    rewrite Hl, Ht. pose proof (Hexits (steady_clock s)) as He.
    destruct (shared_value (text_promise task)) as [v|]; split.
    + split; by eexists.
    + split; [by intros [? _]|by intros [? ?]].
    + split; by intros [? ?].
    + split.
      * intros [_ Hb]. apply He in Hb. rewrite Hb. by eexists.
      * destruct (wait_bound <=? steady_clock s - task_start_time task) eqn:Hb;
          [|by intros [? ?]]. intros _. split; [done|]. by apply He.
  - unfold ProcessImage_ready, ProcessImage_timeout. rewrite Hl, Ht.
    destruct (shared_value (text_promise task)); [by right|by left].
  - intros Hb. unfold ProcessImage_ready, ProcessImage_timeout. rewrite Hl, Ht.
    pose proof (Hexits (steady_clock s)) as He.
    destruct (shared_value (text_promise task)); [left; by eexists|].
    right. apply He in Hb. rewrite Hb. by eexists.
  - intros d Hd Hb. unfold tick. destruct (Z.ltb_spec 0 d); [|lia].
    eexists. split; [done|]. unfold ProcessImage_ready, ProcessImage_timeout. simpl.
    rewrite Hl, Ht. pose proof (Hexits (steady_clock s + d)) as He.
    destruct (shared_value (text_promise task)); [left; by eexists|].
    right. apply He in Hb. rewrite Hb. by eexists.
Qed.

End Properties.

(** * Concrete runs on the test double *)

(** * Properties of the presentation client *)

Section ClientProperties.
Context `{Q : QtText}.
Implicit Types (u : TextExtractionUI) (th : extraction_thread).

(** ** Text shown in the table *)

Lemma filterLettersOnly_loop (input result : list N) :
  foldl (λ result ch, if isLetter ch || isSpace ch then (result ++ [ch])%list else result)
        result input
  = (result ++ List.filter (λ ch, isLetter ch || isSpace ch) input)%list.
Proof.
  revert result. induction input as [|ch input IH]; intros result; simpl.
  - by rewrite app_nil_r.
  - rewrite IH. destruct (isLetter ch || isSpace ch); [|done].
    by rewrite <- app_assoc.
Qed.

Lemma filterLettersOnly_filter (input : list N) :
  filterLettersOnly input = List.filter (λ ch, isLetter ch || isSpace ch) input.
Proof. unfold filterLettersOnly. by rewrite filterLettersOnly_loop. Qed.

Lemma filterLettersOnly_chars (input : list N) ch :
  ch ∈ filterLettersOnly input → isLetter ch = true ∨ isSpace ch = true.
Proof.
  rewrite filterLettersOnly_filter, list_elem_of_In, List.filter_In, orb_true_iff.
  tauto.
Qed.

(** X8.  [filterLettersOnly] keeps exactly the characters that are letters or
    white space, in their order: every character of the result is one, a
    character of the input is dropped only if it is neither, the result of a
    concatenation is the concatenation of the results, filtering twice
    changes nothing more, and a text of letters and spaces only comes back
    unchanged. *)
Theorem filterLettersOnly_keeps_letters_and_spaces (input more : list N) :
  (∀ ch, ch ∈ filterLettersOnly input ↔
         ch ∈ input ∧ (isLetter ch = true ∨ isSpace ch = true)) ∧
  filterLettersOnly input `sublist_of` input ∧
  filterLettersOnly (input ++ more) = (filterLettersOnly input ++ filterLettersOnly more)%list ∧
  filterLettersOnly (filterLettersOnly input) = filterLettersOnly input ∧
  ((∀ ch, ch ∈ input → isLetter ch = true ∨ isSpace ch = true) →
   filterLettersOnly input = input).
Proof.
  rewrite !filterLettersOnly_filter.
  split; [|split; [|split; [|split]]].
  - intros ch. rewrite !list_elem_of_In, List.filter_In, orb_true_iff. tauto.
  - induction input as [|ch input IH]; simpl; [done|].
    destruct (isLetter ch || isSpace ch); by constructor.
  - apply List.filter_app.
  - induction input as [|ch input IH]; simpl; [done|].
    destruct (isLetter ch || isSpace ch) eqn:E; simpl; [|done]. by rewrite E, IH.
  - induction input as [|ch input IH]; simpl; intros Hall; [done|].
    assert (E : isLetter ch || isSpace ch = true).
    { apply orb_true_iff, Hall. by apply elem_of_cons; left. }
    rewrite E. f_equal. apply IH. intros c Hc. apply Hall. by apply elem_of_cons; right.
Qed.

(** X9.  The text put into column 2 never has more than 353 characters: a
    filtered text of at most 350 characters is shown as it is, a longer one is
    cut to its first 350 characters followed by three dots.  Either way the
    first 350 characters shown are the first 350 of the filtered text, and
    every character shown is a letter, a space or a dot. *)
Theorem text_preview_is_short (received : string) :
  let filtered := filterLettersOnly (fromStdString received) in
  (length (text_preview received) ≤ 353)%nat ∧
  ((length filtered ≤ 350)%nat → text_preview received = filtered) ∧
  ((350 < length filtered)%nat →
   text_preview received = (take 350 filtered ++ QStringLiteral "...")%list ∧
   length (text_preview received) = 353%nat) ∧
  take 350 (text_preview received) = take 350 filtered ∧
  (∀ ch, ch ∈ text_preview received →
     isLetter ch = true ∨ isSpace ch = true ∨ ch = 46%N).
Proof.
  intros filtered. unfold text_preview. fold filtered.
  assert (Hchars : ∀ ch, ch ∈ filtered → isLetter ch = true ∨ isSpace ch = true).
  { intros ch Hin. by eapply filterLettersOnly_chars. }
  destruct (Z.ltb_spec 350 (Z.of_nat (length filtered))) as [Hlong|Hshort].
  - assert (Hlen : length (take 350 filtered) = 350%nat)
      by (rewrite length_take; lia).
    split; [rewrite length_app, Hlen; simpl; lia|].
    split; [lia|]. split; [intros _; split; [done|rewrite length_app, Hlen; done]|].
    split.
    + rewrite take_app_le by lia. by rewrite take_take.
    + intros ch Hin. apply elem_of_app in Hin as [Hin|Hin].
      * apply elem_of_take in Hin as (i & Hi & _).
        apply list_elem_of_lookup_2 in Hi. destruct (Hchars _ Hi); auto.
      * right. right. vm_compute in Hin.
        repeat (apply elem_of_cons in Hin as [->|Hin]; [done|]).
        by apply elem_of_nil in Hin.
  - split; [lia|]. split; [done|]. split; [lia|]. split; [done|].
    intros ch Hin. destruct (Hchars _ Hin); auto.
Qed.

(** ** The counters and the rows *)

Lemma new_row (rows : list (list N * list N)) (cells : list N * list N) (a b : list N) :
  set_text (length rows) b (set_status (length rows) a (rows ++ [cells]))
  = (rows ++ [(a, b)])%list.
Proof.
  unfold set_text, set_status. induction rows as [|r rows IH]; simpl; [done|].
  f_equal. apply IH.
Qed.

Lemma failed_row (rows : list (list N * list N)) (a b c : list N) :
  set_status (length rows) c (rows ++ [(a, b)]) = (rows ++ [(c, b)])%list.
Proof.
  unfold set_status. induction rows as [|r rows IH]; simpl; [done|]. f_equal. apply IH.
Qed.

Lemma updateProgressBar_rest u :
  ∃ value, updateProgressBar u = with_progress u value ∧ value ≤ 100.
Proof.
  unfold updateProgressBar. destruct (total_tasks_ u =? 0).
  - exists 0. split; [done|lia].
  - eexists. split; [done|].
    by destruct (Z.ltb_spec 100 (percent_of (completed_tasks_ u) (total_tasks_ u))); lia.
Qed.

Lemma updateSmoothProgress_rest step steps_total u :
  task_progress u ≤ 100 →
  ∃ value, updateSmoothProgress step steps_total u = with_progress u value ∧ value ≤ 100.
Proof.
  intros Hp. unfold updateSmoothProgress. destruct (total_tasks_ u =? 0).
  - exists (task_progress u). split; [by destruct u|done].
  - eexists. split; [done|].
    by destruct (Z.ltb_spec 100 (smooth_percent_of (completed_tasks_ u) (total_tasks_ u)
                                   step steps_total)); lia.
Qed.

Lemma add_file_eq files u file_path :
  ∃ value, value ≤ 100 ∧
  add_file files u file_path =
  match files file_path with
  | None =>
      {| client_session_id_ := client_session_id_ u; job_sequence_ := job_sequence_ u;
         total_tasks_ := total_tasks_ u;
         completed_tasks_ := completed_tasks_ u + 1;
         status_label := status_label u; task_progress := value;
         results_display :=
           (results_display u ++ [(QStringLiteral "Failed to read file", [])])%list;
         detached := detached u |}
  | Some content =>
      {| client_session_id_ := client_session_id_ u; job_sequence_ := job_sequence_ u;
         total_tasks_ := total_tasks_ u; completed_tasks_ := completed_tasks_ u;
         status_label := status_label u;
         task_progress := task_progress u;
         results_display :=
           (results_display u ++ [(QStringLiteral "Waiting...", [])])%list;
         detached := (detached u ++
           [{| current_row := length (results_display u); full_path := file_path;
               image_content := content;
               current_batch_id := pretty (job_sequence_ u); calls_run := 0 |}])%list |}
  end.
Proof.
  unfold add_file, loadImageData. rewrite new_row.
  destruct (files file_path) as [content|].
  - exists 100. split; [lia|done].
  - rewrite failed_row.
    match goal with |- context [updateProgressBar ?x] =>
      destruct (updateProgressBar_rest x) as (value & -> & Hv) end.
    exists value. split; [done|]. done.
Qed.

Lemma add_file_consistent files k u file_path :
  0 ≤ k → ui_consistent_in_loop (k + 1) u →
  ui_consistent_in_loop k (add_file files u file_path).
Proof.
  intros Hk [Hrows Hc Ht Hp [Hs Hj] Hth].
  destruct (add_file_eq files u file_path) as (value & Hv & ->).
  destruct (files file_path) as [content|]; split; simpl;
    rewrite ?length_app; simpl; try lia; try done.
  intros th Hin. apply elem_of_app in Hin as [Hin|Hin]; [by apply Hth|].
  apply list_elem_of_singleton in Hin as ->. simpl. rewrite Hj. split; [done|lia].
Qed.

Lemma add_file_owned files k u file_path :
  ui_rows_owned_in_loop (k + 1) u →
  ui_rows_owned_in_loop k (add_file files u file_path).
Proof.
  intros [Hacc Hnd Hpend].
  assert (Hkeep : ∀ th cells0, th ∈ detached u →
            ∃ cells, (results_display u ++ [cells0])%list !! current_row th = Some cells
                     ∧ row_pending cells).
  { intros th cells0 Hin. destruct (Hpend th Hin) as (cells & Hl & Hrow).
    exists cells. split; [by apply lookup_app_l_Some|done]. }
  destruct (add_file_eq files u file_path) as (value & Hv & ->).
  destruct (files file_path) as [content|]; split; simpl;
    rewrite ?length_app; simpl; try lia; try done; try (intros th Hin; by apply Hkeep).
  - rewrite fmap_app. apply NoDup_app. split; [done|]. split; [|apply NoDup_singleton].
    intros row Hin Hnew. apply list_elem_of_singleton in Hnew as ->.
    apply list_elem_of_fmap in Hin as (th & Hrow & Hin).
    destruct (Hpend th Hin) as (cells & Hl & _). apply lookup_lt_Some in Hl.
    simpl in Hrow. lia.
  - intros th Hin. apply elem_of_app in Hin as [Hin|Hin]; [by apply Hkeep|].
    apply list_elem_of_singleton in Hin as ->. simpl. eexists.
    split; [by apply list_lookup_middle|]. split; [by left|done].
Qed.

Lemma add_files_consistent files (selected_files : list string) : ∀ u,
  ui_consistent_in_loop (Z.of_nat (length selected_files)) u →
  ui_consistent_in_loop 0 (foldl (add_file files) u selected_files).
Proof.
  induction selected_files as [|file_path rest IH]; intros u Hu; [done|].
  simpl. apply IH. apply add_file_consistent; [lia|].
  replace (Z.of_nat (length rest) + 1) with (Z.of_nat (length (file_path :: rest)));
    [done|simpl; lia].
Qed.

Lemma add_files_owned files (selected_files : list string) : ∀ u,
  ui_rows_owned_in_loop (Z.of_nat (length selected_files)) u →
  ui_rows_owned_in_loop 0 (foldl (add_file files) u selected_files).
Proof.
  induction selected_files as [|file_path rest IH]; intros u Hu; [done|].
  simpl. apply IH. apply add_file_owned.
  replace (Z.of_nat (length rest) + 1) with (Z.of_nat (length (file_path :: rest)));
    [done|simpl; lia].
Qed.

Lemma handleAddImages_consistent files selected_files u :
  ui_consistent u → ui_consistent (handleAddImages files selected_files u).
Proof.
  intros [Hrows Hc Ht Hp Hs Hth]. unfold handleAddImages.
  destruct selected_files as [|file_path rest]; [by split|].
  set (sel := file_path :: rest).
  match goal with |- context [updateProgressBar ?x] =>
    destruct (updateProgressBar_rest x) as (value & -> & Hv) end.
  assert (Hloop : ∀ v, ui_consistent_in_loop 0 v → ui_consistent v).
  { intros v [? ? ? ? ? ?]. split; try done; lia. }
  apply Hloop, add_files_consistent. split; simpl; try done; lia.
Qed.

Lemma handleAddImages_owned files selected_files u :
  ui_rows_owned u → ui_rows_owned (handleAddImages files selected_files u).
Proof.
  intros [Hacc Hnd Hpend]. unfold handleAddImages.
  destruct selected_files as [|file_path rest]; [by split|].
  set (sel := file_path :: rest).
  match goal with |- context [updateProgressBar ?x] =>
    destruct (updateProgressBar_rest x) as (value & -> & Hv) end.
  assert (Hloop : ∀ v, ui_rows_owned_in_loop 0 v → ui_rows_owned v).
  { intros v [? ? ?]. split; try done; lia. }
  apply Hloop, add_files_owned. split; simpl; try done; lia.
Qed.

Lemma run_queued_call_inv i u u' :
  run_queued_call i u = Some u' →
  ∃ th value, detached u !! i = Some th ∧ (calls_run th < 21)%nat ∧
    (task_progress u ≤ 100 → value ≤ 100) ∧
    u' = {| client_session_id_ := client_session_id_ u;
            job_sequence_ := job_sequence_ u;
            total_tasks_ := total_tasks_ u;
            completed_tasks_ := completed_tasks_ u;
            status_label := status_label u;
            task_progress := value;
            results_display :=
              match calls_run th with
              | O => set_status (current_row th) (QStringLiteral "Processing...")
                       (results_display u)
              | S _ => results_display u
              end;
            detached := <[i := ran_one th]> (detached u) |}.
Proof.
  unfold run_queued_call. intros H.
  destruct (detached u !! i) as [th|] eqn:Hi; [|done]. exists th.
  destruct (calls_run th) as [|step] eqn:Hc.
  - exists (task_progress u). simplify_eq. split; [done|]. split; [lia|]. by split.
  - destruct (Nat.ltb_spec step 20); [|done]. simplify_eq.
    unfold updateSmoothProgress. destruct (total_tasks_ u =? 0).
    + exists (task_progress u). split; [done|]. split; [lia|]. split; [done|].
      by destruct u.
    + eexists. split; [done|]. split; [lia|]. split; [|done]. intros _.
      simpl. match goal with |- context [100 <? ?x] => destruct (Z.ltb_spec 100 x) end; lia.
Qed.

Lemma deliver_result_inv i operation_status extraction_response u u' :
  deliver_result i operation_status extraction_response u = Some u' →
  ∃ th value, detached u !! i = Some th ∧ calls_run th = 21%nat ∧ value ≤ 100 ∧
    u' = {| client_session_id_ := client_session_id_ u;
            job_sequence_ := job_sequence_ u;
            total_tasks_ := total_tasks_ u;
            completed_tasks_ := completed_tasks_ u + 1;
            status_label :=
              if total_tasks_ u <=? completed_tasks_ u + 1
              then QStringLiteral "Processing complete" else status_label u;
            task_progress := value;
            results_display :=
              show_result (current_row th)
                (extractFromImage_result operation_status extraction_response)
                (results_display u);
            detached := delete i (detached u) |}.
Proof.
  unfold deliver_result. intros H.
  destruct (detached u !! i) as [th|] eqn:Hi; [|done]. exists th.
  destruct (Nat.eqb_spec (calls_run th) 21) as [Hc|]; [|done].
  match type of H with context [updateProgressBar ?x] =>
    destruct (updateProgressBar_rest x) as (value & Hu & Hv); rewrite Hu in H end.
  exists value. simplify_eq. by repeat split.
Qed.

Lemma show_result_length row r (rows : list (list N * list N)) :
  length (show_result row r rows) = length rows.
Proof.
  unfold show_result, set_text, set_status. destruct (ok r); by rewrite !length_alter.
Qed.

Lemma show_result_other row r (rows : list (list N * list N)) row' :
  row ≠ row' → show_result row r rows !! row' = rows !! row'.
Proof.
  intros Hne. unfold show_result, set_text, set_status.
  destruct (ok r); by rewrite !list_lookup_alter_ne.
Qed.

Lemma set_status_other row t (rows : list (list N * list N)) row' :
  row ≠ row' → set_status row t rows !! row' = rows !! row'.
Proof. intros Hne. unfold set_status. by rewrite list_lookup_alter_ne. Qed.

Lemma elem_of_delete_lookup {A} (l : list A) i x :
  x ∈ delete i l → ∃ j, j ≠ i ∧ l !! j = Some x.
Proof.
  intros Hin. apply list_elem_of_lookup in Hin as [k Hk].
  destruct (decide (k < i)%nat).
  - exists k. split; [lia|]. by rewrite list_lookup_delete_lt in Hk.
  - exists (S k). split; [lia|]. rewrite list_lookup_delete_ge in Hk by lia. done.
Qed.

Lemma elem_of_insert_lookup {A} (l : list A) i x y :
  y ∈ <[i := x]> l → y = x ∧ (i < length l)%nat ∨ ∃ j, j ≠ i ∧ l !! j = Some y.
Proof.
  intros Hin. apply list_elem_of_lookup in Hin as [k Hk].
  apply list_lookup_insert_Some in Hk as [(-> & -> & ?)|[Hne Hk]]; [by left|].
  right. exists k. split; [done|done].
Qed.

Lemma rows_differ u i j th th' :
  NoDup (current_row <$> detached u) →
  detached u !! i = Some th → detached u !! j = Some th' → j ≠ i →
  current_row th ≠ current_row th'.
Proof.
  intros Hnd Hi Hj Hne Heq. apply Hne.
  eapply (NoDup_lookup _ j i (current_row th')); [done| |].
  - by rewrite list_lookup_fmap, Hj.
  - rewrite list_lookup_fmap, Hi. simpl. by rewrite Heq.
Qed.

Lemma ui_consistent_step a u u' :
  ui_consistent u → ui_perform a u = Some u' → ui_consistent u'.
Proof.
  intros Hu Ha. destruct a as [files selected_files| |i|i st resp]; simpl in Ha.
  - injection Ha as <-. by apply handleAddImages_consistent.
  - injection Ha as <-. destruct Hu as [Hrows Hc Ht Hp Hs Hth].
    split; simpl; try done; lia.
  - apply run_queued_call_inv in Ha as (th & value & Hi & Hlt & Hv & ->).
    destruct Hu as [Hrows Hc Ht Hp Hs Hth].
    split; simpl; rewrite ?length_insert; try done; try (by apply Hv).
    + destruct (calls_run th); [by unfold set_status; rewrite length_alter|done].
    + intros th' Hin. apply elem_of_insert_lookup in Hin as [[-> _]|(j & _ & Hj)].
      * simpl. split; [|lia]. apply Hth. by eapply list_elem_of_lookup_2.
      * apply Hth. by eapply list_elem_of_lookup_2.
  - apply deliver_result_inv in Ha as (th & value & Hi & Hc21 & Hv & ->).
    destruct Hu as [Hrows Hc Ht Hp Hs Hth].
    pose proof (lookup_lt_Some _ _ _ Hi) as Hlt.
    assert (Hdel : length (delete i (detached u)) = (length (detached u) - 1)%nat)
      by (by apply length_delete).
    split; simpl; rewrite ?show_result_length; try done; try lia.
    + intros th' Hin. apply elem_of_delete_lookup in Hin as (j & _ & Hj).
      apply Hth. by eapply list_elem_of_lookup_2.
Qed.

Lemma ui_rows_owned_step a u u' :
  is_clear a = false →
  ui_rows_owned u → ui_perform a u = Some u' → ui_rows_owned u'.
Proof.
  intros Hclear Hu Ha. destruct a as [files selected_files| |i|i st resp];
    simpl in Ha; [|done| |].
  - injection Ha as <-. by apply handleAddImages_owned.
  - apply run_queued_call_inv in Ha as (th & value & Hi & Hlt & Hv & ->).
    destruct Hu as [Hacc Hnd Hpend].
    assert (Hsame : current_row <$> <[i := ran_one th]> (detached u)
                    = current_row <$> detached u).
    { rewrite list_fmap_insert. apply list_insert_id. by rewrite list_lookup_fmap, Hi. }
    destruct (Hpend th (list_elem_of_lookup_2 _ _ _ Hi)) as (cells & Hcells & Hrow).
    split; simpl; rewrite ?length_insert; try done; [by rewrite Hsame|].
    intros th' Hin. apply elem_of_insert_lookup in Hin as [[-> _]|(j & Hne & Hj)].
    + simpl. destruct (calls_run th); [|by exists cells].
      exists (QStringLiteral "Processing...", snd cells). split.
      * unfold set_status. by rewrite list_lookup_alter_eq, Hcells.
      * split; [by right|apply Hrow].
    + destruct (Hpend th' (list_elem_of_lookup_2 _ _ _ Hj)) as (cells' & Hcells' & Hrow').
      exists cells'. split; [|done].
      destruct (calls_run th); [|done].
      rewrite set_status_other; [done|]. by eapply rows_differ.
  - apply deliver_result_inv in Ha as (th & value & Hi & Hc21 & Hv & ->).
    destruct Hu as [Hacc Hnd Hpend].
    pose proof (lookup_lt_Some _ _ _ Hi) as Hlt.
    assert (Hdel : length (delete i (detached u)) = (length (detached u) - 1)%nat)
      by (by apply length_delete).
    split; simpl.
    + lia.
    + eapply sublist_NoDup; [done|]. apply fmap_sublist, sublist_delete.
    + intros th' Hin. apply elem_of_delete_lookup in Hin as (j & Hne & Hj).
      destruct (Hpend th' (list_elem_of_lookup_2 _ _ _ Hj)) as (cells' & Hcells' & Hrow').
      exists cells'. split; [|done].
      rewrite show_result_other; [done|]. by eapply rows_differ.
Qed.

Lemma ui_consistent_new : ui_consistent TextExtractionUI_new.
Proof.
  split; simpl; try done. intros th Hin. by apply elem_of_nil in Hin.
Qed.

Lemma ui_rows_owned_new : ui_rows_owned TextExtractionUI_new.
Proof.
  split; simpl; try done; [apply NoDup_nil_2|].
  intros th Hin. by apply elem_of_nil in Hin.
Qed.

Lemma ui_consistent_run sched : ∀ u u',
  ui_consistent u → ui_run sched u = Some u' → ui_consistent u'.
Proof.
  induction sched as [|a rest IH]; simpl; intros u u' Hu Hrun.
  - by injection Hrun as <-.
  - destruct (ui_perform a u) as [u1|] eqn:Ha; [|done].
    eapply IH; [|done]. by eapply ui_consistent_step.
Qed.

Lemma ui_rows_owned_run sched : ∀ u u',
  forallb (λ a, negb (is_clear a)) sched = true →
  ui_rows_owned u → ui_run sched u = Some u' → ui_rows_owned u'.
Proof.
  induction sched as [|a rest IH]; simpl; intros u u' Hno Hu Hrun.
  - by injection Hrun as <-.
  - apply andb_true_iff in Hno as [Ha0 Hno]. apply negb_true_iff in Ha0.
    destruct (ui_perform a u) as [u1|] eqn:Ha; [|done].
    eapply IH; [done| |done]. by eapply ui_rows_owned_step.
Qed.

(** X10.  Whatever the user does, the table has exactly [total_tasks_] rows,
    the completed count is not negative, every counted task is completed or
    still has its thread running, and the progress bar never shows more than
    100.  Every request a thread sends carries the session "session_1", the
    batch id "0" (the job sequence number is never advanced), the language
    "eng", the path of the file and the bytes read from it. *)
Theorem window_is_consistent u :
  ui_reachable u →
  Z.of_nat (length (results_display u)) = total_tasks_ u ∧
  0 ≤ completed_tasks_ u ∧
  total_tasks_ u ≤ completed_tasks_ u + Z.of_nat (length (detached u)) ∧
  task_progress u ≤ 100 ∧
  ∀ th, th ∈ detached u →
    (calls_run th ≤ 21)%nat ∧
    thread_request u th =
      {| client_id := "session_1"; batch_id := "0"; filename := full_path th;
         image := image_content th; lang := "eng" |}.
Proof.
  intros (sched & Hrun).
  destruct (ui_consistent_run sched _ _ ui_consistent_new Hrun)
    as [Hrows Hc Ht Hp [Hs Hj] Hth].
  repeat (split; [done|]). intros th Hin. destruct (Hth th Hin) as [Hb Hc21].
  split; [done|]. unfold thread_request, extraction_request. by rewrite Hs, Hb.
Qed.

Lemma show_result_insert row r (rows : list (list N * list N)) cells :
  rows !! row = Some cells →
  show_result row r rows =
  <[row := if ok r then (QStringLiteral "Completed", text_preview (text r))
           else ((QStringLiteral "Error: " ++ fromStdString (message r))%list, [])]> rows.
Proof.
  intros Hl. apply list_eq. intros j. unfold show_result, set_text, set_status.
  destruct (decide (row = j)) as [<-|Hne].
  - rewrite list_lookup_insert_eq by (by eapply lookup_lt_Some).
    destruct (ok r); by rewrite !list_lookup_alter_eq, Hl.
  - rewrite list_lookup_insert_ne by done.
    destruct (ok r); by rewrite !list_lookup_alter_ne.
Qed.

(** X11.  As long as "Clear All" is not used, a result lands in the row made
    for its file.  When a thread that has run its 21 queued calls gets the
    outcome of the remote call, its row still exists, still shows "Waiting..."
    or "Processing..." with no text, and no other running thread refers to
    it.  The row then shows "Completed" with the preview of the text if the
    call and the server both succeeded, and otherwise "Error: " followed by
    the transport error or the server's message, with no text; no other row
    changes.  The completed count goes up by one, completed plus running
    threads still equals the total, and the label turns to "Processing
    complete" exactly when no thread is left running. *)
Theorem result_lands_in_its_row u i th operation_status extraction_response :
  ui_reachable_without_clear u →
  detached u !! i = Some th →
  calls_run th = 21%nat →
  ∃ u' cells,
    deliver_result i operation_status extraction_response u = Some u' ∧
    results_display u !! current_row th = Some cells ∧ row_pending cells ∧
    results_display u' =
      <[current_row th :=
          if status_ok operation_status && ok extraction_response
          then (QStringLiteral "Completed", text_preview (text extraction_response))
          else ((QStringLiteral "Error: " ++
                 fromStdString (if status_ok operation_status
                                then message extraction_response
                                else error_message operation_status))%list, [])]>
        (results_display u) ∧
    detached u' = delete i (detached u) ∧
    (∀ th', th' ∈ detached u' → current_row th' ≠ current_row th) ∧
    completed_tasks_ u' = completed_tasks_ u + 1 ∧
    total_tasks_ u' = total_tasks_ u ∧
    completed_tasks_ u' + Z.of_nat (length (detached u')) = total_tasks_ u' ∧
    status_label u' =
      match detached u' with
      | [] => QStringLiteral "Processing complete"
      | _ => status_label u
      end.
Proof.
  intros (sched & Hno & Hrun) Hi Hc21.
  destruct (ui_rows_owned_run sched _ _ Hno ui_rows_owned_new Hrun)
    as [Hacc Hnd Hpend].
  destruct (Hpend th (list_elem_of_lookup_2 _ _ _ Hi)) as (cells & Hcells & Hrow).
  assert (Hsome : is_Some (deliver_result i operation_status extraction_response u)).
  { unfold deliver_result. rewrite Hi, Hc21. simpl. eauto. }
  destruct Hsome as [u' Hu']. exists u', cells. split; [done|].
  apply deliver_result_inv in Hu' as (th0 & value & Hi0 & _ & Hv & ->).
  simplify_eq. simpl.
  assert (Hdel : length (delete i (detached u)) = (length (detached u) - 1)%nat)
    by (by apply length_delete).
  pose proof (lookup_lt_Some _ _ _ Hi) as Hlt.
  split; [done|]. split; [done|]. split.
  { rewrite (show_result_insert _ _ _ cells Hcells).
    unfold extractFromImage_result.
    destruct (status_ok operation_status); simpl; [done|]. done. }
  split; [done|]. split.
  { intros th' Hin. apply elem_of_delete_lookup in Hin as (j & Hne & Hj).
    intros Heq. by eapply (rows_differ u i j th th'). }
  split; [done|]. split; [done|]. split; [lia|].
  destruct (delete i (detached u)) eqn:Hleft; simpl in Hdel.
  - destruct (Z.leb_spec (total_tasks_ u) (completed_tasks_ u + 1)); [done|lia].
  - destruct (Z.leb_spec (total_tasks_ u) (completed_tasks_ u + 1)); [lia|done].
Qed.

Lemma add_unreadable files (selected_files : list string) : ∀ u,
  (∀ path, path ∈ selected_files → files path = None) →
  detached (foldl (add_file files) u selected_files) = detached u ∧
  status_label (foldl (add_file files) u selected_files) = status_label u ∧
  total_tasks_ (foldl (add_file files) u selected_files) = total_tasks_ u ∧
  completed_tasks_ (foldl (add_file files) u selected_files)
    = completed_tasks_ u + Z.of_nat (length selected_files) ∧
  results_display (foldl (add_file files) u selected_files)
    = (results_display u ++
       ((λ _, (QStringLiteral "Failed to read file", [])) <$> selected_files))%list.
Proof.
  induction selected_files as [|path rest IH]; intros u Hall; simpl.
  - rewrite app_nil_r. repeat split; lia.
  - destruct (add_file_eq files u path) as (value & Hv & Heq).
    rewrite (Hall path) in Heq by (by apply elem_of_cons; left).
    destruct (IH (add_file files u path)) as (Hd & Hl & Ht & Hc & Hr).
    { intros p Hp. apply Hall. by apply elem_of_cons; right. }
    rewrite Hd, Hl, Ht, Hc, Hr, Heq. simpl. rewrite <- app_assoc. simpl.
    repeat split; lia.
Qed.

(** X12.  If none of the selected files can be read while no thread is
    running, [handleAddImages] starts no thread: each file gets a row "Failed
    to read file" and is counted as completed at once, so with all earlier
    tasks completed the counters are equal again.  But the label is left at
    "Processing N image(s)...": only the last queued call of a thread sets
    "Processing complete", and there is no thread whose call could run. *)
Theorem unreadable_files_leave_label files (selected_files : list string) u :
  selected_files ≠ [] →
  (∀ path, path ∈ selected_files → files path = None) →
  detached u = [] →
  detached (handleAddImages files selected_files u) = [] ∧
  total_tasks_ (handleAddImages files selected_files u)
    = total_tasks_ u + Z.of_nat (length selected_files) ∧
  completed_tasks_ (handleAddImages files selected_files u)
    = completed_tasks_ u + Z.of_nat (length selected_files) ∧
  results_display (handleAddImages files selected_files u)
    = (results_display u ++
       ((λ _, (QStringLiteral "Failed to read file", [])) <$> selected_files))%list ∧
  status_label (handleAddImages files selected_files u)
    = (QStringLiteral "Processing " ++
       QStringLiteral (pretty (total_tasks_ u + Z.of_nat (length selected_files))) ++
       QStringLiteral " image(s)...")%list ∧
  status_label (handleAddImages files selected_files u)
    ≠ QStringLiteral "Processing complete" ∧
  ∀ i operation_status extraction_response,
    ui_perform (Queued i) (handleAddImages files selected_files u) = None ∧
    ui_perform (Result i operation_status extraction_response)
      (handleAddImages files selected_files u) = None.
Proof.
  intros Hne Hall Hd. unfold handleAddImages.
  destruct selected_files as [|path rest] eqn:Hsel; [done|]. rewrite <- Hsel in *.
  match goal with |- context [updateProgressBar ?x] =>
    destruct (updateProgressBar_rest x) as (value & -> & Hv) end.
  match goal with |- context [foldl (add_file files) ?x selected_files] =>
    destruct (add_unreadable files selected_files x Hall) as (Hd' & Hl & Ht & Hc & Hr);
    set (u' := foldl (add_file files) x selected_files) in * end.
  simpl in Hd', Ht, Hc, Hr. cbn [status_label] in Hl.
  split; [by rewrite Hd'|]. split; [done|]. split; [done|]. split; [done|].
  split; [done|]. split.
  - rewrite Hl. intros Heq. apply (f_equal length) in Heq.
    rewrite !length_app in Heq.
    change (length (QStringLiteral "Processing ")) with 11%nat in Heq.
    change (length (QStringLiteral "Processing complete")) with 19%nat in Heq.
    change (length (QStringLiteral " image(s)...")) with 12%nat in Heq. lia.
  - intros i st resp. simpl. unfold run_queued_call, deliver_result.
    by rewrite Hd', Hd.
Qed.

(** a run of queued calls and results only *)
Lemma results_on_cleared_table sched : ∀ u u',
  forallb (λ a, negb (is_add a) && negb (is_clear a)) sched = true →
  results_display u = [] → total_tasks_ u = 0 → task_progress u = 0 →
  0 ≤ completed_tasks_ u →
  ui_run sched u = Some u' →
  results_display u' = [] ∧ total_tasks_ u' = 0 ∧ task_progress u' = 0 ∧
  completed_tasks_ u'
    = completed_tasks_ u + Z.of_nat (length (List.filter is_result sched)) ∧
  status_label u' =
    match List.filter is_result sched with
    | [] => status_label u
    | _ => QStringLiteral "Processing complete"
    end.
Proof.
  induction sched as [|a rest IH]; simpl; intros u u' Hno Hrows Ht Hp Hc Hrun.
  - injection Hrun as <-. repeat split; try done; lia.
  - apply andb_true_iff in Hno as [Ha Hno].
    destruct a as [files sel| |i|i st resp]; try done; simpl in Hrun.
    + destruct (run_queued_call i u) as [u1|] eqn:Hq; [|done].
      assert (H1 : results_display u1 = [] ∧ total_tasks_ u1 = 0 ∧ task_progress u1 = 0 ∧
                   completed_tasks_ u1 = completed_tasks_ u ∧
                   status_label u1 = status_label u).
      { unfold run_queued_call in Hq. destruct (detached u !! i) as [th|]; [|done].
        destruct (calls_run th) as [|step].
        - injection Hq as <-. simpl. by rewrite Hrows.
        - destruct (step <? 20)%nat; [|done]. injection Hq as <-.
          unfold updateSmoothProgress. rewrite Ht. simpl. done. }
      destruct H1 as (Hr1 & Ht1 & Hp1 & Hc1 & Hl1).
      destruct (IH u1 u' Hno Hr1 Ht1 Hp1) as (? & ? & ? & Hc' & Hl'); [lia|done|].
      simpl. rewrite Hc', Hl', Hc1, Hl1. done.
    + destruct (deliver_result i st resp u) as [u1|] eqn:Hq; [|done].
      assert (H1 : results_display u1 = [] ∧ total_tasks_ u1 = 0 ∧ task_progress u1 = 0 ∧
                   completed_tasks_ u1 = completed_tasks_ u + 1 ∧
                   status_label u1 = QStringLiteral "Processing complete").
      { unfold deliver_result in Hq. destruct (detached u !! i) as [th|]; [|done].
        destruct (calls_run th =? 21)%nat; [|done]. injection Hq as <-.
        unfold updateProgressBar. simpl. rewrite Ht. simpl. rewrite Hrows.
        split; [unfold show_result, set_text, set_status; by destruct (ok _)|].
        split; [done|]. split; [done|]. split; [done|].
        by destruct (Z.leb_spec 0 (completed_tasks_ u + 1)); [|lia]. }
      destruct H1 as (Hr1 & Ht1 & Hp1 & Hc1 & Hl1).
      destruct (IH u1 u' Hno Hr1 Ht1 Hp1) as (? & ? & ? & Hc' & Hl'); [lia|done|].
      simpl. rewrite Hc', Hl', Hc1, Hl1.
      split; [done|]. split; [done|]. split; [done|]. split; [lia|].
      by destruct (List.filter is_result rest).
Qed.

(** X13.  "Clear All" does not stop the threads that are running.  After it,
    and until images are added again, their queued calls and results still
    run: nothing of them is shown (the table stays empty, the total stays 0,
    the progress bar stays at 0), but every result that arrives is counted as
    completed, and from the first such result on the label reads "Processing
    complete". *)
Theorem results_after_clear sched u u' :
  forallb (λ a, negb (is_add a) && negb (is_clear a)) sched = true →
  ui_run sched (resetDisplay u) = Some u' →
  detached (resetDisplay u) = detached u ∧
  results_display u' = [] ∧ total_tasks_ u' = 0 ∧ task_progress u' = 0 ∧
  completed_tasks_ u' = Z.of_nat (length (List.filter is_result sched)) ∧
  status_label u' =
    match List.filter is_result sched with
    | [] => QStringLiteral "Ready to process images"
    | _ => QStringLiteral "Processing complete"
    end.
Proof.
  intros Hno Hrun. split; [done|].
  destruct (results_on_cleared_table sched (resetDisplay u) u' Hno)
    as (Hr & Ht & Hp & Hc & Hl); try done.
Qed.

End ClientProperties.

Import Double.

Lemma queue_is_fifo_run :
  run three_requests (TaskProcessor 0 2) = Some (after three_requests 2) ∧
  submitted (queue_log (after three_requests 2)) = [0; 1; 2]%nat ∧
  dequeued (queue_log (after three_requests 2)) = [0; 1; 2]%nat ∧
  removers 1 (queue_log (after three_requests 2)) = [0%nat] ∧
  submitted (queue_log (after three_requests 2))
    = (dequeued (queue_log (after three_requests 2))
       ++ pending_tasks_ (after three_requests 2))%list ∧
  NoDup (submitted (queue_log (after three_requests 2))).
Proof.
  split; [vm_compute; reflexivity|].
  split; [vm_compute; reflexivity|]. split; [vm_compute; reflexivity|].
  split; [vm_compute; reflexivity|].
  destruct (queue_is_fifo (after three_requests 2)) as (Hfifo & Hnodup & _).
  - apply (run_reachable 0 2 three_requests). vm_compute. reflexivity.
  - split; [exact Hfifo|exact Hnodup].
Defined.

Lemma timeout_leaves_task_run :
  run slow_request (TaskProcessor 0 1) = Some (after slow_request 1) ∧
  ∃ s', ProcessImage_timeout 0 (after slow_request 1) = Some s' ∧
    handlers s' !! 0%nat = Some (Replied timeout_response) ∧
    pending_tasks_ s' = pending_tasks_ (after slow_request 1) ∧
    workers_ s' = workers_ (after slow_request 1) ∧
    ∃ u', worker_finish 0 s' = Some u' ∧
      handlers u' !! 0%nat = Some (Replied timeout_response) ∧
      (text_promise <$> tasks u' !! 0%nat)
        = Some {| shared_value := Some "HELLO"; reader := FutureAbandoned |}.
Proof.
  split; [vm_compute; reflexivity|].
  exists (after (slow_request ++ [Timeout 0]) 1).
  split; [vm_compute; reflexivity|].
  destruct (timeout_leaves_task (after slow_request 1) 0
              (after (slow_request ++ [Timeout 0]) 1))
    as (t & ws & task & Hh & _ & _ & _ & Hrep & _ & _ & Hp & Hw & _ & _ & _ & _ & Hlater).
  - apply (run_reachable 0 1 slow_request). vm_compute. reflexivity.
  - vm_compute. reflexivity.
  - split; [exact Hrep|]. split; [exact Hp|]. split; [exact Hw|].
    assert (Ht : t = 0%nat) by (vm_compute in Hh; congruence).
    destruct (Hlater (after (slow_request ++ [Timeout 0]) 1) 0%nat
                (busy 0) (rtc_refl _ _) eq_refl
                (f_equal Holding (eq_sym Ht)))
      as (task_u & u' & _ & _ & _ & Hfin & _ & _ & Hrep').
    exists u'. split; [exact Hfin|]. split; [exact Hrep'|].
    assert (Hu : Some u' = Some (after (slow_request ++ [Timeout 0; Finish 0]) 1)).
    { rewrite <- Hfin. vm_compute. reflexivity. }
    injection Hu as ->. vm_compute. reflexivity.
Defined.

Lemma completed_reply_run :
  run quick_request (TaskProcessor 0 1) = Some (after quick_request 1) ∧
  ∃ s', ProcessImage_ready 0 (after quick_request 1) = Some s' ∧
    handlers s' !! 0%nat
      = Some (Replied {| ok := true; text := "HELLO"; message := "";
                         processing_time_ms := 7 |}) ∧
    ∃ r, handlers s' !! 0%nat = Some (Replied r) ∧ ok r = true ∧
         0 ≤ processing_time_ms r.
Proof.
  split; [vm_compute; reflexivity|].
  exists (after (quick_request ++ [Ready 0]) 1).
  split; [vm_compute; reflexivity|]. split; [vm_compute; reflexivity|].
  destruct (completed_reply (after quick_request 1) 0
              (after (quick_request ++ [Ready 0]) 1))
    as (t & ws & task & txt & r & _ & _ & _ & Hrep & Hok & _ & _ & Hpos & _).
  - apply (run_reachable 0 1 quick_request). vm_compute. reflexivity.
  - vm_compute. reflexivity.
  - exists r. split; [exact Hrep|]. split; [exact Hok|exact Hpos].
Defined.

Lemma decode_failure_is_silent_run :
  run undecodable_request (TaskProcessor 0 1) = Some (after undecodable_request 1) ∧
  ∃ s1, worker_finish 0 (after undecodable_request 1) = Some s1 ∧
    ∃ u' r, ProcessImage_ready 0 s1 = Some u' ∧
      handlers u' !! 0%nat = Some (Replied r) ∧
      ok r = true ∧ text r = "" ∧ message r = "".
Proof.
  split; [vm_compute; reflexivity|].
  destruct (decode_failure_is_silent (after undecodable_request 1)
              0 (busy 0) 0
              (with_promise (new_task_of (request "empty.png" [] "eng") 0)
                 {| shared_value := None; reader := FutureWaiting |}))
    as (_ & (s1 & Hfin & _ & _ & Hlater) & _).
  - apply (run_reachable 0 1 undecodable_request). vm_compute. reflexivity.
  - reflexivity.
  - reflexivity.
  - reflexivity.
  - reflexivity.
  - exists s1. split; [exact Hfin|].
    apply (Hlater s1 0%nat 0 (rtc_refl _ _)).
    assert (Hs : Some s1 = Some (after (undecodable_request ++ [Finish 0]) 1)).
    { rewrite <- Hfin. vm_compute. reflexivity. }
    injection Hs as ->. vm_compute. reflexivity.
Defined.

Lemma worker_survives_bad_task_run :
  run bad_then_good (TaskProcessor 0 1) = Some (after bad_then_good 1) ∧
  ∃ s1 s2, worker_finish 0 (after bad_then_good 1) = Some s1 ∧
    (text_promise <$> tasks s1 !! 0%nat)
      = Some {| shared_value := Some "ERROR: bad image"; reader := FutureWaiting |} ∧
    (∃ wk', workers_ s1 !! 0%nat = Some wk' ∧ at_ wk' = AtWait) ∧
    worker_take 0 s1 = Some s2 ∧ holds s2 0 1.
Proof.
  split; [vm_compute; reflexivity|].
  destruct (worker_survives_bad_task (after bad_then_good 1)
              0 (busy 0) 0
              (with_promise (new_task_of (request "bad.png" [x01] "eng") 0)
                 {| shared_value := None; reader := FutureWaiting |})
              "ERROR: bad image")
    as (s1 & Hfin & Hwr & Hwait & Hp & _ & Hnext & _).
  - apply (run_reachable 0 1 bad_then_good). vm_compute. reflexivity.
  - reflexivity.
  - reflexivity.
  - reflexivity.
  - left. exists "bad image". split; reflexivity.
  - destruct (Hnext 1%nat [] Hp) as (s2 & Htake & Hholds & _).
    exists s1, s2. split; [exact Hfin|].
    split; [exact (f_equal (fmap text_promise) Hwr)|].
    split; [exact Hwait|]. split; [exact Htake|exact Hholds].
Defined.

Lemma stop_drains_queue_run :
  run two_queued (TaskProcessor 0 1) = Some (after two_queued 1) ∧
  pending_tasks_ (after two_queued 1) = [0; 1]%nat ∧
  stopProcessing (fst (stopProcessing (after two_queued 1)))
    = (fst (stopProcessing (after two_queued 1)), false) ∧
  run drain (fst (stopProcessing (after two_queued 1)))
    = Some (after (two_queued ++ Stop :: drain) 1) ∧
  joined (after (two_queued ++ Stop :: drain) 1) = true ∧
  ∀ t, t ∈ pending_tasks_ (after two_queued 1) →
       t ∈ dequeued (queue_log (after (two_queued ++ Stop :: drain) 1)).
Proof.
  split; [vm_compute; reflexivity|]. split; [vm_compute; reflexivity|].
  assert (Hrun : run drain (fst (stopProcessing (after two_queued 1)))
                 = Some (after (two_queued ++ Stop :: drain) 1))
    by (vm_compute; reflexivity).
  destruct (stop_drains_queue (after two_queued 1))
    as (_ & Hagain & _ & _ & _ & _ & Hlater).
  - apply (run_reachable 0 1 two_queued). vm_compute. reflexivity.
  - reflexivity.
  - split; [exact Hagain|]. split; [exact Hrun|].
    split; [vm_compute; reflexivity|].
    destruct (Hlater _ (run_steps _ _ _ Hrun)) as (_ & _ & Hjoined).
    apply Hjoined; [vm_compute; reflexivity|discriminate].
Defined.

Lemma language_hint_has_no_effect_run :
  hide_action_language <$> served "eng" = hide_action_language <$> served "fra" ∧
  ∃ s1 s2, run (served "eng") (TaskProcessor 0 1) = Some s1 ∧
    run (served "fra") (TaskProcessor 0 1) = Some s2 ∧
    language_code <$> tasks s1 = ["eng"] ∧ language_code <$> tasks s2 = ["fra"] ∧
    handlers s1 = handlers s2 ∧
    text_promise <$> tasks s1 = text_promise <$> tasks s2.
Proof.
  split; [reflexivity|].
  destruct (language_hint_has_no_effect (served "eng") (served "fra") 0 1 eq_refl)
    as (_ & Hsame & _).
  destruct (Hsame (after (served "eng") 1)) as (s2 & Hrun2 & Hh & Hp & _).
  - vm_compute. reflexivity.
  - exists (after (served "eng") 1), s2.
    split; [vm_compute; reflexivity|]. split; [exact Hrun2|].
    split; [vm_compute; reflexivity|]. split; [|split; [exact Hh|exact Hp]].
    assert (Hs : Some s2 = Some (after (served "fra") 1)).
    { rewrite <- Hrun2. vm_compute. reflexivity. }
    injection Hs as ->. vm_compute. reflexivity.
Defined.

(** C4, as stated, fails here: the caller's deadline of 5 seconds has passed,
    the handler is still inside its wait and cannot leave it by timeout; when
    the result arrives later the handler replies [ok = true], ten seconds after
    the request; and with nothing delivered, the wait ends by timeout only once
    120 seconds have passed. *)
Lemma wait_ignores_caller_deadline :
  run impatient_caller (TaskProcessor 0 1) = Some (after impatient_caller 1) ∧
  deadline (client_context 0 (Some 5)) = seconds 5 ∧
  deadline (client_context 0 (Some 5)) < steady_clock (after impatient_caller 1) ∧
  handlers (after impatient_caller 1) !! 0%nat = Some (InWaitFor 0 0) ∧
  ProcessImage_timeout 0 (after impatient_caller 1) = None ∧
  ProcessImage_ready 0 (after impatient_caller 1) = None ∧
  handlers <$> run (impatient_caller ++ [Take 0; Finish 0; Ready 0]) (TaskProcessor 0 1)
    = Some [Replied {| ok := true; text := "HELLO"; message := "";
                       processing_time_ms := 10000 |}] ∧
  handlers <$> run (impatient_caller ++ [Tick (seconds 109); Timeout 0]) (TaskProcessor 0 1)
    = None ∧
  handlers <$> run (impatient_caller ++ [Tick (seconds 110); Timeout 0]) (TaskProcessor 0 1)
    = Some [Replied timeout_response].
Proof. repeat split; vm_compute; reflexivity. Qed.

(** the worker of [slow_request] writes after its handler has timed out *)
Lemma result_written_at_most_once_run :
  set_value promise_new "first"
    = inr {| shared_value := Some "first"; reader := NoFuture |} ∧
  set_value {| shared_value := Some "first"; reader := NoFuture |} "second"
    = inl promise_already_satisfied ∧
  deliver {| shared_value := Some "first"; reader := NoFuture |} "second"
    = {| shared_value := Some "first"; reader := NoFuture |} ∧
  ∃ s', worker_finish 0 (after (slow_request ++ [Timeout 0]) 1) = Some s' ∧
    (text_promise <$> tasks s' !! 0%nat)
      = Some {| shared_value := Some "HELLO"; reader := FutureAbandoned |} ∧
    handlers s' = [Replied timeout_response].
Proof.
  destruct (result_written_at_most_once promise_new "first" "second")
    as (Hfirst & _ & _ & _ & _ & Hlate).
  destruct (result_written_at_most_once
              {| shared_value := Some "first"; reader := NoFuture |} "first" "second")
    as (_ & Hsecond & _).
  destruct (Hsecond "first" eq_refl) as [Hrejected Hkept].
  split; [exact (Hfirst eq_refl)|]. split; [exact Hrejected|]. split; [exact Hkept|].
  destruct (Hlate (after (slow_request ++ [Timeout 0]) 1) 0%nat (busy 0) 0%nat
              (with_promise (new_task_of (request "a.png" [x41] "eng") 0)
                 {| shared_value := None; reader := FutureAbandoned |}))
    as (s' & Hfin & Hwr & Hh & _).
  - apply (run_reachable 0 1 (slow_request ++ [Timeout 0])). vm_compute. reflexivity.
  - reflexivity.
  - reflexivity.
  - reflexivity.
  - reflexivity.
  - exists s'. split; [exact Hfin|].
    split; [exact (f_equal (fmap text_promise) Hwr)|]. exact Hh.
Defined.

(** the handler enters the same wait whether the caller asked for 5 seconds or
    for 300 *)
Lemma wait_bound_is_fixed_run :
  ∃ s1,
    ProcessImage_submit (client_context 0 (Some 5))
      (extraction_request "session_1" "0" "a.png" [x41]) (TaskProcessor 0 1) = Some s1 ∧
    ProcessImage_submit (client_context 0 (Some 300))
      (extraction_request "session_1" "0" "a.png" [x41]) (TaskProcessor 0 1) = Some s1 ∧
    handlers s1 !! 0%nat = Some (InWaitFor 0 0) ∧
    deadline (client_context 0 None) = 120000000000.
Proof.
  destruct (wait_bound_is_fixed (client_context 0 (Some 5))
              (extraction_request "session_1" "0" "a.png" [x41]) (TaskProcessor 0 1))
    as (s1 & Hsubmit & Hwait & Hany & _ & Hdefault & _).
  exists s1. split; [exact Hsubmit|]. split; [exact (Hany _)|].
  split; [exact Hwait|exact (Hdefault 0)].
Defined.


Lemma pool_is_fixed_run :
  length (workers_ (after three_requests 2)) = 2%nat.
Proof.
  destruct (pool_is_fixed (TaskProcessor 0 2) (after three_requests 2)) as (_ & _ & Hn).
  - apply (run_steps three_requests). vm_compute. reflexivity.
  - exact (Hn 0 2%nat eq_refl).
Defined.

(** worker 1 finishes its task while worker 0 holds task 1 *)
Lemma engine_is_private_run :
  workers_ (after (take 5 three_requests) 2) !! 0%nat = Some (busy 1) ∧
  perform (Finish 1) (after (take 5 three_requests) 2)
    = Some (after (take 6 three_requests) 2) ∧
  workers_ (after (take 6 three_requests) 2) !! 0%nat = Some (busy 1).
Proof.
  assert (Hw : workers_ (after (take 5 three_requests) 2) !! 0%nat = Some (busy 1))
    by (vm_compute; reflexivity).
  assert (Ha : perform (Finish 1) (after (take 5 three_requests) 2)
               = Some (after (take 6 three_requests) 2)) by (vm_compute; reflexivity).
  split; [exact Hw|]. split; [exact Ha|].
  destruct (engine_is_private (Finish 1) _ _ 0%nat (busy 1) Ha Hw) as (wk' & Hw' & _ & Hsame).
  rewrite Hw'. f_equal. apply Hsame; discriminate.
Defined.

(** a request that arrives after the only worker has returned *)
Lemma request_after_workers_left_run :
  joined (after shut_down 1) = true ∧
  pending_tasks_ (after (shut_down ++ late_request ++ late_wait) 1) = [0%nat] ∧
  unwritten (after (shut_down ++ late_request ++ late_wait) 1) 0 ∧
  handlers (after (shut_down ++ late_request ++ late_wait) 1) !! 0%nat
    = Some (Replied timeout_response).
Proof.
  split; [vm_compute; reflexivity|]. split; [vm_compute; reflexivity|].
  destruct (request_after_workers_left (after shut_down 1)
              (context (seconds 120)) (request "late.png" [x41] "eng")
              (after (shut_down ++ late_request) 1)
              (after (shut_down ++ late_request ++ late_wait) 1))
    as (_ & _ & _ & Hun & _).
  - apply (run_reachable 0 1 shut_down). vm_compute. reflexivity.
  - vm_compute. reflexivity.
  - vm_compute. reflexivity.
  - apply (run_steps late_wait). vm_compute. reflexivity.
  - split; [exact Hun|]. vm_compute. reflexivity.
Defined.

Lemma reply_is_timeout_or_text_run :
  handlers (after (quick_request ++ [Ready 0]) 1) !! 0%nat
    = Some (Replied {| ok := true; text := "HELLO"; message := "";
                       processing_time_ms := 7 |}) ∧
  ∃ task, tasks (after (quick_request ++ [Ready 0]) 1) !! 0%nat = Some task ∧
          shared_value (text_promise task) = Some "HELLO".
Proof.
  assert (Hl : handlers (after (quick_request ++ [Ready 0]) 1) !! 0%nat
    = Some (Replied {| ok := true; text := "HELLO"; message := "";
                       processing_time_ms := 7 |})) by (vm_compute; reflexivity).
  split; [exact Hl|].
  assert (Hr : reachable (after (quick_request ++ [Ready 0]) 1)).
  { apply (run_reachable 0 1 (quick_request ++ [Ready 0])). vm_compute. reflexivity. }
  destruct (reply_is_timeout_or_text _ 0%nat _ Hr Hl) as [(Heq & _)|(_ & _ & _ & Htask)].
  - discriminate Heq.
  - exact Htask.
Defined.

Lemma reply_times_are_sound_run :
  handlers (after (slow_request ++ [Timeout 0]) 1) !! 0%nat
    = Some (Replied timeout_response) ∧
  ∃ task, tasks (after (slow_request ++ [Timeout 0]) 1) !! 0%nat = Some task ∧
    seconds 120 ≤ steady_clock (after (slow_request ++ [Timeout 0]) 1)
                  - task_start_time task.
Proof.
  assert (Hl : handlers (after (slow_request ++ [Timeout 0]) 1) !! 0%nat
    = Some (Replied timeout_response)) by (vm_compute; reflexivity).
  split; [exact Hl|].
  assert (Hr : reachable (after (slow_request ++ [Timeout 0]) 1)).
  { apply (run_reachable 0 1 (slow_request ++ [Timeout 0])). vm_compute. reflexivity. }
  destruct (reply_times_are_sound _ 0%nat _ Hr Hl) as (task & Ht & Hlate & _).
  exists task. split; [exact Ht|exact (Hlate eq_refl)].
Defined.

(** task 0 is done, tasks 1 and 2 are in the hands of workers 0 and 1 *)
Lemma promise_written_iff_finished_run :
  (text_promise <$> tasks (after three_requests 2) !! 0%nat)
    = Some {| shared_value := Some "HELLO"; reader := FutureWaiting |} ∧
  0%nat ∈ dequeued (queue_log (after three_requests 2)) ∧
  ∀ w, ¬ holds (after three_requests 2) w 0.
Proof.
  split; [vm_compute; reflexivity|].
  destruct (promise_written_iff_finished (after three_requests 2) 0
              (with_promise (new_task_of (request "a.png" [x41] "eng") 0)
                 {| shared_value := Some "HELLO"; reader := FutureWaiting |}))
    as ([Hdone _] & _).
  - apply (run_reachable 0 2 three_requests). vm_compute. reflexivity.
  - reflexivity.
  - apply Hdone. by eexists.
Defined.

Lemma one_worker_serves_queue_run :
  pending_tasks_ (after two_queued 1) = [0; 1]%nat ∧
  ∃ s', run [Take 0; Finish 0; Take 0; Finish 0] (after two_queued 1) = Some s' ∧
    pending_tasks_ s' = [] ∧
    dequeued (queue_log s') = [0; 1]%nat ∧
    ∀ t, t ∈ [0; 1]%nat →
      ∃ task, tasks s' !! t = Some task ∧ is_Some (shared_value (text_promise task)).
Proof.
  split; [vm_compute; reflexivity|].
  destruct (one_worker_serves_queue (after two_queued 1) 0 (worker_start))
    as (s' & Hrun & Hempty & _ & Hdq & Hwr & _).
  - apply (run_reachable 0 1 two_queued). vm_compute. reflexivity.
  - reflexivity.
  - reflexivity.
  - exists s'. split; [exact Hrun|]. split; [exact Hempty|].
    split; [exact Hdq|exact Hwr].
Defined.

(** the worker of [slow_request] is still busy when the 120 seconds are over *)
Lemma wait_always_ends_run :
  handlers (after slow_request 1) !! 0%nat = Some (InWaitFor 0 0) ∧
  ProcessImage_ready 0 (after slow_request 1) = None ∧
  is_Some (ProcessImage_timeout 0 (after slow_request 1)).
Proof.
  assert (Hl : handlers (after slow_request 1) !! 0%nat = Some (InWaitFor 0 0))
    by (vm_compute; reflexivity).
  assert (Hr : reachable (after slow_request 1)).
  { apply (run_reachable 0 1 slow_request). vm_compute. reflexivity. }
  split; [exact Hl|]. split; [vm_compute; reflexivity|].
  destruct (wait_always_ends _ 0%nat 0%nat 0 Hr Hl) as (_ & _ & Hover & _).
  destruct Hover as [[s1 Hready]|Htimeout].
  - vm_compute. discriminate.
  - vm_compute in Hready. discriminate Hready.
  - exact Htimeout.
Defined.

Import QtDouble.

Lemma window_is_consistent_run :
  ui_run one_of_two TextExtractionUI_new = Some (window_after one_of_two) ∧
  length (results_display (window_after one_of_two)) = 2%nat ∧
  total_tasks_ (window_after one_of_two) = 2 ∧
  completed_tasks_ (window_after one_of_two) = 1 ∧
  length (detached (window_after one_of_two)) = 1%nat ∧
  ∀ th, th ∈ detached (window_after one_of_two) →
    (calls_run th ≤ 21)%nat ∧
    thread_request (window_after one_of_two) th =
      {| client_id := "session_1"; batch_id := "0"; filename := full_path th;
         image := image_content th; lang := "eng" |}.
Proof.
  assert (Hrun : ui_run one_of_two TextExtractionUI_new = Some (window_after one_of_two))
    by (vm_compute; reflexivity).
  split; [exact Hrun|]. split; [vm_compute; reflexivity|].
  split; [vm_compute; reflexivity|]. split; [vm_compute; reflexivity|].
  split; [vm_compute; reflexivity|].
  destruct (window_is_consistent (window_after one_of_two)) as (_ & _ & _ & _ & Hth).
  - exists one_of_two. exact Hrun.
  - exact Hth.
Defined.

Lemma result_lands_in_its_row_run :
  ∃ u', deliver_result 0 transport_ok (replied "HELLO") (window_after one_of_two) = Some u' ∧
    results_display u' =
      <[0%nat := (QStringLiteral "Completed", text_preview (text (replied "HELLO")))]>
        (results_display (window_after one_of_two)) ∧
    detached u' = [] ∧
    completed_tasks_ u' = 2 ∧
    status_label u' = QStringLiteral "Processing complete".
Proof.
  destruct (result_lands_in_its_row (window_after one_of_two) 0
              {| current_row := 0; full_path := "a.png"; image_content := [x41];
                 current_batch_id := "0"; calls_run := 21 |}
              transport_ok (replied "HELLO"))
    as (u' & cells & Hdel & _ & _ & Hrows & Hth & _ & Hc & _ & _ & Hlabel).
  - exists one_of_two. split; vm_compute; reflexivity.
  - reflexivity.
  - reflexivity.
  - exists u'. split; [exact Hdel|]. split; [exact Hrows|].
    split; [exact Hth|]. split; [exact Hc|].
    rewrite Hth in Hlabel. exact Hlabel.
Defined.

Lemma unreadable_files_leave_label_run :
  detached (handleAddImages folder ["missing.png"] TextExtractionUI_new) = [] ∧
  total_tasks_ (handleAddImages folder ["missing.png"] TextExtractionUI_new) = 1 ∧
  completed_tasks_ (handleAddImages folder ["missing.png"] TextExtractionUI_new) = 1 ∧
  status_label (handleAddImages folder ["missing.png"] TextExtractionUI_new)
    = QStringLiteral "Processing 1 image(s)...".
Proof.
  destruct (unreadable_files_leave_label folder ["missing.png"] TextExtractionUI_new)
    as (Hd & Ht & Hc & _ & Hl & _).
  - discriminate.
  - intros path Hin. apply list_elem_of_singleton in Hin. rewrite Hin. reflexivity.
  - reflexivity.
  - split; [exact Hd|]. split; [exact Ht|]. split; [exact Hc|exact Hl].
Defined.

Lemma results_after_clear_run :
  ui_run one_finishing (resetDisplay (window_after one_started))
    = Some (window_after (one_started ++ ClearAll :: one_finishing)) ∧
  length (detached (resetDisplay (window_after one_started))) = 1%nat ∧
  results_display (window_after (one_started ++ ClearAll :: one_finishing)) = [] ∧
  total_tasks_ (window_after (one_started ++ ClearAll :: one_finishing)) = 0 ∧
  completed_tasks_ (window_after (one_started ++ ClearAll :: one_finishing)) = 1 ∧
  status_label (window_after (one_started ++ ClearAll :: one_finishing))
    = QStringLiteral "Processing complete".
Proof.
  assert (Hrun : ui_run one_finishing (resetDisplay (window_after one_started))
            = Some (window_after (one_started ++ ClearAll :: one_finishing)))
    by (vm_compute; reflexivity).
  split; [exact Hrun|]. split; [vm_compute; reflexivity|].
  destruct (results_after_clear one_finishing (window_after one_started) _ eq_refl Hrun)
    as (_ & Hrows & Ht & _ & Hc & Hl).
  split; [exact Hrows|]. split; [exact Ht|]. split; [exact Hc|exact Hl].
Defined.
